(** * Proximal operators of MIRTorch ([prox/Prox.py])

    A shallow embedding of the [Prox] class hierarchy and of the torch
    primitives it calls, followed by the properties of the operators.

    Numeric model.  A tensor element is an exact real number or one of the
    IEEE 754 special values (+inf, -inf, NaN).  Rounding, overflow and the
    sign of zero are not modelled: finite arithmetic is exact, zero is the
    positive zero, and division by zero and the arithmetic of the special
    values follow IEEE 754.  Tensors are flattened to the list of their
    elements; a dtype tag records the element type the dispatch of
    [Prox.__call__] looks at. *)

From Stdlib Require Import Reals Lra List String Bool PeanoNat.
Import ListNotations.
Local Open Scope R_scope.

(* ================================================================== *)
(** ** Exceptions and results *)

Inductive exn : Type :=
| AssertionError   (* a failed [assert] *)
| RuntimeError.    (* raised by a torch primitive *)

Inductive result (A : Type) : Type :=
| Ok (a : A)
| Raise (e : exn).

Arguments Ok {A} a.
Arguments Raise {A} e.

Definition result_map {A B : Type} (f : A -> B) (r : result A) : result B :=
  match r with
  | Ok a => Ok (f a)
  | Raise e => Raise e
  end.

(* ================================================================== *)
(** ** Tensor elements *)

Inductive fnum : Type :=
| Fin (x : R)
| PInf
| NInf
| NaN.

Definition Rltb (x y : R) : bool := if Rlt_dec x y then true else false.

Arguments Rltb : simpl never.

(** Three-way choice on the sign of a real. *)
Definition by_sign {A : Type} (x : R) (neg zero pos : A) : A :=
  if Rltb x 0 then neg else if Rltb 0 x then pos else zero.

Definition fneg (a : fnum) : fnum :=
  match a with
  | Fin x => Fin (- x)
  | PInf => NInf
  | NInf => PInf
  | NaN => NaN
  end.

Definition fadd (a b : fnum) : fnum :=
  match a, b with
  | NaN, _ | _, NaN => NaN
  | Fin x, Fin y => Fin (x + y)
  | PInf, NInf | NInf, PInf => NaN
  | PInf, _ | _, PInf => PInf
  | NInf, _ | _, NInf => NInf
  end.

Definition fsub (a b : fnum) : fnum := fadd a (fneg b).

Definition fmul (a b : fnum) : fnum :=
  match a, b with
  | NaN, _ | _, NaN => NaN
  | Fin x, Fin y => Fin (x * y)
  | Fin x, PInf | PInf, Fin x => by_sign x NInf NaN PInf
  | Fin x, NInf | NInf, Fin x => by_sign x PInf NaN NInf
  | PInf, PInf | NInf, NInf => PInf
  | PInf, NInf | NInf, PInf => NInf
  end.

(** IEEE division: a finite nonzero value over zero is an infinity of the
    sign of the numerator, zero over zero is NaN. *)
Definition fdiv (a b : fnum) : fnum :=
  match a, b with
  | NaN, _ | _, NaN => NaN
  | Fin x, Fin y => by_sign y (Fin (x / y)) (by_sign x NInf NaN PInf) (Fin (x / y))
  | Fin _, PInf | Fin _, NInf => Fin 0
  | PInf, Fin y => if Rltb y 0 then NInf else PInf
  | NInf, Fin y => if Rltb y 0 then PInf else NInf
  | PInf, PInf | PInf, NInf | NInf, PInf | NInf, NInf => NaN
  end.

(** [a < b]; false as soon as one side is NaN. *)
Definition flt (a b : fnum) : bool :=
  match a, b with
  | NaN, _ | _, NaN => false
  | Fin x, Fin y => Rltb x y
  | NInf, Fin _ | NInf, PInf | Fin _, PInf => true
  | _, _ => false
  end.

(** Elementwise maximum and minimum; both propagate NaN. *)
Definition fmax (a b : fnum) : fnum :=
  match a, b with
  | NaN, _ | _, NaN => NaN
  | _, _ => if flt a b then b else a
  end.

Definition fmin (a b : fnum) : fnum :=
  match a, b with
  | NaN, _ | _, NaN => NaN
  | _, _ => if flt b a then b else a
  end.

Definition fabs (a : fnum) : fnum :=
  match a with
  | Fin x => Fin (Rabs x)
  | PInf | NInf => PInf
  | NaN => NaN
  end.

Definition fsqrt (a : fnum) : fnum :=
  match a with
  | Fin x => if Rltb x 0 then NaN else Fin (sqrt x)
  | PInf => PInf
  | NInf | NaN => NaN
  end.

Definition fatan (a : fnum) : fnum :=
  match a with
  | Fin x => Fin (atan x)
  | PInf => Fin (PI / 2)
  | NInf => Fin (- (PI / 2))
  | NaN => NaN
  end.

Definition fcos (a : fnum) : fnum :=
  match a with
  | Fin x => Fin (cos x)
  | _ => NaN
  end.

Definition fsin (a : fnum) : fnum :=
  match a with
  | Fin x => Fin (sin x)
  | _ => NaN
  end.

Definition is_inf (a : fnum) : bool :=
  match a with
  | PInf | NInf => true
  | _ => false
  end.

Definition fsum (xs : list fnum) : fnum := fold_right fadd (Fin 0) xs.

(** Complex elements, as a pair of components. *)
Record cnum : Type := Cx { re : fnum; im : fnum }.

Definition of_real (x : fnum) : cnum := Cx x (Fin 0).

Definition cmul (z w : cnum) : cnum :=
  Cx (fsub (fmul (re z) (re w)) (fmul (im z) (im w)))
     (fadd (fmul (re z) (im w)) (fmul (im z) (re w))).

(** Magnitude of a complex element (hypot: infinite as soon as one
    component is). *)
Definition cabs (z : cnum) : fnum :=
  if is_inf (re z) || is_inf (im z) then PInf
  else fsqrt (fadd (fmul (re z) (re z)) (fmul (im z) (im z))).

(** Squared magnitude, summed by the Euclidean norm. *)
Definition cnorm2 (z : cnum) : fnum :=
  fadd (fmul (re z) (re z)) (fmul (im z) (im z)).

(* ================================================================== *)
(** ** Elementwise application with broadcasting *)

Fixpoint map2 {A B C : Type} (f : A -> B -> C) (xs : list A) (ys : list B)
  : list C :=
  match xs, ys with
  | x :: xs', y :: ys' => f x y :: map2 f xs' ys'
  | _, _ => []
  end.

(** Operands of equal size are combined pointwise, a one-element operand
    is broadcast, any other pair of sizes is a shape error. *)
Definition broadcast2 {A B C : Type} (f : A -> B -> C)
  (xs : list A) (ys : list B) : result (list C) :=
  if Nat.eqb (List.length xs) (List.length ys) then Ok (map2 f xs ys)
  else match xs, ys with
       | [x], _ => Ok (map (f x) ys)
       | _, [y] => Ok (map (fun x => f x y) xs)
       | _, _ => Raise RuntimeError
       end.

(* ================================================================== *)
(** ** The torch primitives used by [Prox.py] *)

Module torch.

(** Element types: the floating types and the complex types. *)
Inductive rdtype : Type := float16 | bfloat16 | float32 | float64.
Inductive cdtype : Type := complex32 | complex64 | complex128.
Inductive dtype : Type :=
| Floating (d : rdtype)
| Complex (d : cdtype).

(** [torch.cfloat] is complex64, [torch.cdouble] is complex128. *)
Definition cfloat : dtype := Complex complex64.
Definition cdouble : dtype := Complex complex128.

Definition rdtype_eqb (a b : rdtype) : bool :=
  match a, b with
  | float16, float16 | bfloat16, bfloat16 | float32, float32 | float64, float64 => true
  | _, _ => false
  end.

Definition cdtype_eqb (a b : cdtype) : bool :=
  match a, b with
  | complex32, complex32 | complex64, complex64 | complex128, complex128 => true
  | _, _ => false
  end.

Definition dtype_eqb (a b : dtype) : bool :=
  match a, b with
  | Floating x, Floating y => rdtype_eqb x y
  | Complex x, Complex y => cdtype_eqb x y
  | _, _ => false
  end.

(** A real tensor and a complex tensor: element type and elements. *)
Record RTensor : Type := RT { rdtype_of : rdtype; rvals : list fnum }.
Record CTensor : Type := CT { cdtype_of : cdtype; cvals : list cnum }.

Inductive Tensor : Type :=
| TReal (t : RTensor)
| TCplx (t : CTensor).

(** [v.dtype] *)
Definition dtype_of (v : Tensor) : dtype :=
  match v with
  | TReal t => Floating (rdtype_of t)
  | TCplx t => Complex (cdtype_of t)
  end.

(** Component type of a complex type, complex type over a real type. *)
Definition real_of (d : cdtype) : rdtype :=
  match d with
  | complex32 => float16
  | complex64 => float32
  | complex128 => float64
  end.

Definition complex_of (d : rdtype) : cdtype :=
  match d with
  | float16 => complex32
  | bfloat16 | float32 => complex64
  | float64 => complex128
  end.

(** Type promotion of two dimensioned operands. *)
Definition promote_rr (a b : rdtype) : rdtype :=
  match a, b with
  | float64, _ | _, float64 => float64
  | float32, _ | _, float32 => float32
  | float16, float16 => float16
  | bfloat16, bfloat16 => bfloat16
  | _, _ => float32
  end.

Definition promote_cc (a b : cdtype) : cdtype :=
  match a, b with
  | complex128, _ | _, complex128 => complex128
  | complex64, _ | _, complex64 => complex64
  | complex32, complex32 => complex32
  end.

Definition promote_cr (a : cdtype) (b : rdtype) : cdtype :=
  promote_cc a (complex_of b).

(** [torch.Tensor([x])]: a one-element tensor of the default type. *)
Definition Tensor_of_scalar (x : R) : RTensor := RT float32 [Fin x].

(** [v.abs()]: elementwise magnitude; real also for a complex [v]. *)
Definition abs (v : Tensor) : Tensor :=
  match v with
  | TReal (RT d xs) => TReal (RT d (map fabs xs))
  | TCplx (CT d zs) => TReal (RT (real_of d) (map cabs zs))
  end.

(** [v.real]: the tensor itself when [v] is real. *)
Definition real (v : Tensor) : RTensor :=
  match v with
  | TReal t => t
  | TCplx (CT d zs) => RT (real_of d) (map re zs)
  end.

(** [v.imag]: not implemented for a tensor of non-complex type. *)
Definition imag (v : Tensor) : result RTensor :=
  match v with
  | TReal _ => Raise RuntimeError
  | TCplx (CT d zs) => Ok (RT (real_of d) (map im zs))
  end.

(** [a / b] on real tensors. *)
Definition truediv (a b : RTensor) : result RTensor :=
  result_map (RT (promote_rr (rdtype_of a) (rdtype_of b)))
             (broadcast2 fdiv (rvals a) (rvals b)).

(** [c / t] and [c - t] with a Python float on the left. *)
Definition rtruediv (c : R) (t : RTensor) : RTensor :=
  RT (rdtype_of t) (map (fdiv (Fin c)) (rvals t)).

Definition rsub (c : R) (t : RTensor) : RTensor :=
  RT (rdtype_of t) (map (fsub (Fin c)) (rvals t)).

Definition atan (t : RTensor) : RTensor := RT (rdtype_of t) (map fatan (rvals t)).
Definition cos (t : RTensor) : RTensor := RT (rdtype_of t) (map fcos (rvals t)).
Definition sin (t : RTensor) : RTensor := RT (rdtype_of t) (map fsin (rvals t)).

(** [torch.complex(real, imag)]: both parts of one type among half,
    float and double. *)
Definition complex (a b : RTensor) : result CTensor :=
  if rdtype_eqb (rdtype_of a) (rdtype_of b)
  then match rdtype_of a with
       | bfloat16 => Raise RuntimeError
       | d => result_map (CT (complex_of d)) (broadcast2 Cx (rvals a) (rvals b))
       end
  else Raise RuntimeError.

(** [a * b] and [torch.mul(a, b)]: a real operand meeting a complex one
    is promoted to complex. *)
Definition mul (a b : Tensor) : result Tensor :=
  match a, b with
  | TReal (RT d1 xs), TReal (RT d2 ys) =>
      result_map (fun l => TReal (RT (promote_rr d1 d2) l)) (broadcast2 fmul xs ys)
  | TCplx (CT d1 zs), TCplx (CT d2 ws) =>
      result_map (fun l => TCplx (CT (promote_cc d1 d2) l)) (broadcast2 cmul zs ws)
  | TCplx (CT d1 zs), TReal (RT d2 ys) =>
      result_map (fun l => TCplx (CT (promote_cr d1 d2) l))
                 (broadcast2 cmul zs (map of_real ys))
  | TReal (RT d1 xs), TCplx (CT d2 ws) =>
      result_map (fun l => TCplx (CT (promote_cr d2 d1) l))
                 (broadcast2 cmul (map of_real xs) ws)
  end.

(** [torch.div(v, c)] with a Python float [c]; on a complex tensor both
    components are divided. *)
Definition div (v : Tensor) (c : R) : Tensor :=
  match v with
  | TReal (RT d xs) => TReal (RT d (map (fun x => fdiv x (Fin c)) xs))
  | TCplx (CT d zs) =>
      TCplx (CT d (map (fun z => Cx (fdiv (re z) (Fin c)) (fdiv (im z) (Fin c))) zs))
  end.

(** [torch.clamp(v, min, max)]: [min(max(v, min), max)] elementwise; not
    supported for complex types. *)
Definition fclamp (lo hi : R) (x : fnum) : fnum := fmin (fmax x (Fin lo)) (Fin hi).

Definition clamp (v : Tensor) (lo hi : R) : result Tensor :=
  match v with
  | TReal (RT d xs) => Ok (TReal (RT d (map (fclamp lo hi) xs)))
  | TCplx _ => Raise RuntimeError
  end.

(** [torch.max(input, other)] for a dimensioned [input] and a
    zero-dimensional [other] of the same category, given by its item: the
    elementwise maximum, of the type and shape of [input]. *)
Definition max (input : RTensor) (other : fnum) : RTensor :=
  RT (rdtype_of input) (map (fun x => fmax x other) (rvals input)).

Module linalg.

(** [torch.linalg.norm(v)]: Euclidean norm of the flattened tensor, a
    zero-dimensional real tensor given by its item. *)
Definition norm (v : Tensor) : fnum :=
  match v with
  | TReal t => fsqrt (fsum (map (fun x => fmul x x) (rvals t)))
  | TCplx t => fsqrt (fsum (map cnorm2 (cvals t)))
  end.

End linalg.

Module nn.

(** [torch.nn.Softshrink(lambd)]: the module only stores [lambd]. *)
Record Softshrink : Type := mkSoftshrink { lambd : R }.

(** [x - lambd] above [lambd], [x + lambd] below [-lambd], else 0. *)
Definition softshrink (lambd : R) (x : fnum) : fnum :=
  if flt (Fin lambd) x then fsub x (Fin lambd)
  else if flt x (Fin (- lambd)) then fadd x (Fin lambd)
  else Fin 0.

(** Applying the module: refused with a RuntimeError when [lambd < 0]
    ("lambda must be greater or equal to 0") and for complex tensors. *)
Definition Softshrink_call (m : Softshrink) (v : Tensor) : result Tensor :=
  if Rltb (lambd m) 0 then Raise RuntimeError
  else match v with
       | TReal (RT d xs) => Ok (TReal (RT d (map (softshrink (lambd m)) xs)))
       | TCplx _ => Raise RuntimeError
       end.

End nn.

End torch.

(* ================================================================== *)
(** ** The linear-map collaborator

    Only what [L1Regularizer] uses of it: the collection of properties it
    reports and its application to a tensor, which may fail. *)

Record LinearMap : Type := mkLinearMap {
  property : list string;
  LinearMap_call : torch.Tensor -> result torch.Tensor
}.

(** ['unitary' in T.property] *)
Definition reports_unitary (T : LinearMap) : bool :=
  existsb (String.eqb "unitary") (property T).

(* ================================================================== *)
(** ** Methods: computations over the receiver's attributes

    A method takes the state of [self] and returns a result or an
    exception together with the state of [self] afterwards. *)

Definition M (Self A : Type) : Type := Self -> result A * Self.

Definition ret {Self A : Type} (a : A) : M Self A := fun s => (Ok a, s).

Definition bind {Self A B : Type} (m : M Self A) (k : A -> M Self B) : M Self B :=
  fun s =>
    match m s with
    | (Ok a, s') => k a s'
    | (Raise e, s') => (Raise e, s')
    end.

(** Read the attributes of [self]. *)
Definition self {Self : Type} : M Self Self := fun s => (Ok s, s).

(** Write the attributes of [self] (used by no method of [Prox.py]). *)
Definition setattr {Self : Type} (s' : Self) : M Self unit := fun _ => (Ok tt, s').

(** A call of a torch primitive. *)
Definition lift {Self A : Type} (r : result A) : M Self A := fun s => (r, s).

Notation "x <- m ;; k" := (bind m (fun x => k))
  (at level 61, m at next level, right associativity).

(* ================================================================== *)
(** ** [class Prox] *)

(** The subclasses provide [_apply]. *)
Class Prox (Self : Type) : Type := {
  _apply : torch.Tensor -> M Self torch.Tensor
}.

Section ProxBase.
Context {Self : Type} `{Prox Self}.

(** [Prox._complex] *)
Definition _complex (v : torch.Tensor) : M Self torch.CTensor :=
  vimag <- lift (torch.imag v) ;;
  q <- lift (torch.truediv vimag (torch.real v)) ;;
  let angle := torch.atan q in
  exp <- lift (torch.complex (torch.cos angle) (torch.sin angle)) ;;
  ret exp.

(** [Prox.__call__] *)
Definition __call__ (v : torch.Tensor) : M Self torch.Tensor :=
  if torch.dtype_eqb (torch.dtype_of v) torch.cfloat
     || torch.dtype_eqb (torch.dtype_of v) torch.cdouble
  then
    e <- _complex v ;;
    a <- _apply (torch.abs v) ;;
    lift (torch.mul (torch.TCplx e) a)
  else _apply v.

End ProxBase.

(** The result of calling operator [op] on [v], and [op] afterwards. *)
Definition evaluate {Self : Type} `{Prox Self} (op : Self) (v : torch.Tensor)
  : result torch.Tensor := fst (__call__ v op).

Definition after_call {Self : Type} `{Prox Self} (op : Self) (v : torch.Tensor)
  : Self := snd (__call__ v op).

(* ================================================================== *)
(** ** [class L1Regularizer(Prox)] *)

Module L1Regularizer.

Record t : Type := mk { Lambda : R; T : option LinearMap }.

(** [__init__(self, Lambda, T=None)] *)
Definition __init__ (Lambda : R) (T : option LinearMap) : result t :=
  match T with
  | Some T' =>
      if reports_unitary T' then Ok (mk Lambda T) else Raise AssertionError
  | None => Ok (mk Lambda T)
  end.

Definition _apply (v : torch.Tensor) : M t torch.Tensor :=
  s <- self ;;
  let thresh := torch.nn.mkSoftshrink (Lambda s) in
  v <- match T s with
       | Some T' => lift (LinearMap_call T' v)
       | None => ret v
       end ;;
  x <- lift (torch.nn.Softshrink_call thresh v) ;;
  ret x.

#[global] Instance prox : Prox t := Build_Prox t _apply.

End L1Regularizer.

(* ================================================================== *)
(** ** [class L2Regularizer(Prox)] *)

Module L2Regularizer.

Record t : Type := mk { Lambda : R }.

Definition __init__ (Lambda : R) : result t := Ok (mk Lambda).

(** The one-element tensor [scale] of [_apply]. *)
Definition scale (Lambda : R) (v : torch.Tensor) : torch.RTensor :=
  torch.rsub 1 (torch.rtruediv Lambda
    (torch.max (torch.Tensor_of_scalar Lambda) (torch.linalg.norm v))).

Definition _apply (v : torch.Tensor) : M t torch.Tensor :=
  s <- self ;;
  x <- lift (torch.mul (torch.TReal (scale (Lambda s) v)) v) ;;
  ret x.

#[global] Instance prox : Prox t := Build_Prox t _apply.

End L2Regularizer.

(* ================================================================== *)
(** ** [class SquaredL2Regularizer(Prox)] *)

Module SquaredL2Regularizer.

Record t : Type := mk { Lambda : R }.

Definition __init__ (Lambda : R) : result t := Ok (mk Lambda).

Definition _apply (v : torch.Tensor) : M t torch.Tensor :=
  s <- self ;;
  let x := torch.div v (1 + 2 * Lambda s) in
  ret x.

#[global] Instance prox : Prox t := Build_Prox t _apply.

End SquaredL2Regularizer.

(* ================================================================== *)
(** ** [class BoxConstraint(Prox)] *)

Module BoxConstraint.

Record t : Type := mk { l : R; u : R; Lambda : R }.

Definition __init__ (Lambda lower upper : R) : result t :=
  Ok (mk lower upper Lambda).

Definition _apply (v : torch.Tensor) : M t torch.Tensor :=
  s <- self ;;
  x <- lift (torch.clamp v (l s) (u s)) ;;
  ret x.

#[global] Instance prox : Prox t := Build_Prox t _apply.

End BoxConstraint.

(* ================================================================== *)
(** ** Notions the properties are stated with *)

(** Sign of a real: -1, 0 or 1. *)
Definition sgn (x : R) : R := by_sign x (-1) 0 1.

(** Soft-thresholding, [sign(x) * max(|x| - Lambda, 0)]. *)
Definition soft_threshold (Lambda x : R) : R :=
  sgn x * Rmax (Rabs x - Lambda) 0.

(** The unit-magnitude direction [z / |z|] of a complex element, and the
    phase of a complex tensor. *)
Definition unit_direction (z : cnum) : cnum :=
  Cx (fdiv (re z) (cabs z)) (fdiv (im z) (cabs z)).

Definition phase (v : torch.CTensor) : torch.CTensor :=
  torch.CT (torch.cdtype_of v) (map unit_direction (torch.cvals v)).

(** Magnitude-only processing recombined with the phase:
    [phase(v) * evaluate(|v|)]. *)
Definition recombined {Self : Type} `{Prox Self} (op : Self) (v : torch.CTensor)
  : result torch.Tensor :=
  match evaluate op (torch.abs (torch.TCplx v)) with
  | Ok a => torch.mul (torch.TCplx (phase v)) a
  | Raise e => Raise e
  end.

(** What [_complex] computes at one element: [cos + i sin] of
    [atan(imag / real)]. *)
Definition atan_phase (z : cnum) : cnum :=
  let angle := fatan (fdiv (im z) (re z)) in
  Cx (fcos angle) (fsin angle).

(** A method that leaves the attributes of [self] as they were. *)
Definition readonly {Self A : Type} (m : M Self A) : Prop :=
  forall s : Self, snd (m s) = s.

(** Two calls in a row, as in the iterations of a calling algorithm: both
    results and the operator after the second call. *)
Definition call_twice {Self : Type} `{Prox Self} (op : Self) (v : torch.Tensor)
  : result torch.Tensor * result torch.Tensor * Self :=
  let (r1, op1) := __call__ v op in
  let (r2, op2) := __call__ v op1 in
  (r1, r2, op2).

(** The single element of the tensor [scale] of [L2Regularizer._apply]. *)
Definition scale_item (Lambda : R) (v : torch.Tensor) : fnum :=
  fsub (Fin 1) (fdiv (Fin Lambda) (fmax (Fin Lambda) (torch.linalg.norm v))).

(** An operator whose [_apply] sends a real tensor to a real tensor of
    the same size, and a transform that does. *)
Definition keeps_real_shape {Self : Type} `{Prox Self} (op : Self) : Prop :=
  forall t : torch.RTensor,
  exists (t' : torch.RTensor) (op' : Self),
    _apply (torch.TReal t) op = (Ok (torch.TReal t'), op')
    /\ List.length (torch.rvals t') = List.length (torch.rvals t).

Definition transform_keeps_shape (T : option LinearMap) : Prop :=
  match T with
  | None => True
  | Some T' =>
      forall t : torch.RTensor,
      exists t' : torch.RTensor,
        LinearMap_call T' (torch.TReal t) = Ok (torch.TReal t')
        /\ List.length (torch.rvals t') = List.length (torch.rvals t)
  end.

(** A finite complex element of positive real part. *)
Definition right_half_plane (z : cnum) : Prop :=
  exists x y : R, z = Cx (Fin x) (Fin y) /\ 0 < x.

(** A real tensor of finite elements. *)
Definition finite (d : torch.rdtype) (xs : list R) : torch.Tensor :=
  torch.TReal (torch.RT d (map Fin xs)).

(** Euclidean norm of a list of reals. *)
Definition norm2 (xs : list R) : R :=
  sqrt (fold_right Rplus 0 (map (fun x => x * x) xs)).

(* ================================================================== *)
(** ** The proximal problems of the docstrings

    [Prox_f(v) = argmin_x 1/2 ||x - v||_2^2 + f(x)], with [f] the L1 norm,
    the L2 norm, the squared L2 norm or the indicator of a box. *)

Definition sum_list (xs : list R) : R := fold_right Rplus 0 xs.

(** [||x - v||_2^2] *)
Definition sq_dist (xs vs : list R) : R :=
  sum_list (map2 (fun x v => (x - v) * (x - v)) xs vs).

(** [||x||_1] and [||x||_2^2] *)
Definition l1_norm (xs : list R) : R := sum_list (map Rabs xs).

Definition sum_squares (xs : list R) : R := sum_list (map (fun x => x * x) xs).

Definition L1_objective (Lambda : R) (vs xs : list R) : R :=
  1 / 2 * sq_dist xs vs + Lambda * l1_norm xs.

Definition L2_objective (Lambda : R) (vs xs : list R) : R :=
  1 / 2 * sq_dist xs vs + Lambda * norm2 xs.

Definition SquaredL2_objective (Lambda : R) (vs xs : list R) : R :=
  1 / 2 * sq_dist xs vs + Lambda * sum_squares xs.

(** The feasible set of the box constraint. *)
Definition in_box (lower upper : R) (xs : list R) : Prop :=
  Forall (fun x => lower <= x <= upper) xs.


(** Inner product of two arrays of one size. *)
Definition dot (xs ys : list R) : R := sum_list (map2 Rmult xs ys).

(** The opposite of a complex element, for the negated array [-v]. *)
Definition cneg (z : cnum) : cnum := Cx (fneg (re z)) (fneg (im z)).

(** A finite complex element off the imaginary axis, and a finite nonzero
    complex element. *)
Definition off_imaginary_axis (z : cnum) : Prop :=
  exists x y : R, z = Cx (Fin x) (Fin y) /\ x <> 0.

Definition finite_nonzero (z : cnum) : Prop :=
  exists x y : R, z = Cx (Fin x) (Fin y) /\ (x <> 0 \/ y <> 0).






(* ================================================================== *)
(** * Properties *)

(** ** Arithmetic of the elements *)

Lemma Rltb_true (x y : R) : x < y -> Rltb x y = true.
Proof. intros H. unfold Rltb. destruct (Rlt_dec x y); [reflexivity | contradiction]. Qed.

Lemma Rltb_false (x y : R) : ~ x < y -> Rltb x y = false.
Proof. intros H. unfold Rltb. destruct (Rlt_dec x y); [contradiction | reflexivity]. Qed.

(** Case analysis on the first comparison of the goal. *)
Ltac case_Rltb :=
  match goal with
  | |- context [Rltb ?a ?b] =>
      let H := fresh "Hlt" in
      destruct (Rlt_dec a b) as [H | H];
      [ rewrite (Rltb_true a b H) | rewrite (Rltb_false a b H) ]
  end.

Lemma by_sign_neg {A : Type} (x : R) (n z p : A) : x < 0 -> by_sign x n z p = n.
Proof. intros H. unfold by_sign. rewrite Rltb_true; auto. Qed.

Lemma by_sign_pos {A : Type} (x : R) (n z p : A) : 0 < x -> by_sign x n z p = p.
Proof.
  intros H. unfold by_sign.
  rewrite Rltb_false by lra. rewrite Rltb_true; auto.
Qed.

Lemma by_sign_zero {A : Type} (n z p : A) : by_sign 0 n z p = z.
Proof. unfold by_sign. rewrite !Rltb_false by lra. reflexivity. Qed.

Lemma fdiv_finite (x y : R) : y <> 0 -> fdiv (Fin x) (Fin y) = Fin (x / y).
Proof.
  intros Hy. simpl.
  destruct (Rtotal_order y 0) as [Hneg | [Hzero | Hpos]].
  - apply by_sign_neg; exact Hneg.
  - contradiction.
  - apply by_sign_pos; exact Hpos.
Qed.

Lemma sgn_cases (x : R) :
  (x < 0 /\ sgn x = -1) \/ (x = 0 /\ sgn x = 0) \/ (0 < x /\ sgn x = 1).
Proof.
  unfold sgn, by_sign. repeat case_Rltb; auto.
  right; left; split; [lra | reflexivity].
Qed.

(** ** Running a method *)

Lemma bind_unfold {Self A B : Type} (m : M Self A) (k : A -> M Self B) (s : Self) :
  bind m k s
  = match m s with
    | (Ok a, s') => k a s'
    | (Raise e, s') => (Raise e, s')
    end.
Proof. reflexivity. Qed.

Ltac run :=
  unfold evaluate, after_call, __call__; simpl;
  unfold _apply; simpl;
  unfold L1Regularizer._apply, L2Regularizer._apply,
    SquaredL2Regularizer._apply, BoxConstraint._apply, bind, lift, ret, self;
  simpl.

(* ------------------------------------------------------------------ *)
(** ** The dispatch of [Prox.__call__] *)

(** C10.  The complex branch of [__call__] is taken exactly when the
    element type of the input is [torch.cfloat] (complex64) or
    [torch.cdouble] (complex128); every other element type, half-precision
    complex (complex32) included, goes to [_apply] directly, with no
    magnitude/phase decomposition. *)
Theorem call_dispatch_by_dtype :
  forall (Self : Type) (P : Prox Self) (v : torch.Tensor),
    __call__ v =
    match torch.dtype_of v with
    | torch.Complex torch.complex64 | torch.Complex torch.complex128 =>
        e <- _complex v ;;
        a <- _apply (torch.abs v) ;;
        lift (torch.mul (torch.TCplx e) a)
    | torch.Complex torch.complex32 | torch.Floating _ => _apply v
    end.
Proof.
  intros Self P v. unfold __call__.
  destruct v as [[d xs] | [d zs]]; destruct d; reflexivity.
Qed.

Lemma call_real (Self : Type) (P : Prox Self) (t : torch.RTensor) :
  __call__ (torch.TReal t) = _apply (torch.TReal t).
Proof. reflexivity. Qed.

(* ------------------------------------------------------------------ *)
(** ** Construction of the L1 operator *)

Lemma reports_unitary_In (T : LinearMap) :
  reports_unitary T = true <-> In "unitary"%string (property T).
Proof.
  unfold reports_unitary. rewrite existsb_exists. split.
  - intros [s [Hin Heq]]. apply String.eqb_eq in Heq. subst s. exact Hin.
  - intros Hin. exists "unitary"%string. split; [exact Hin | apply String.eqb_refl].
Qed.

(** C5.  [L1Regularizer.__init__] with a transform that does not report
    the property 'unitary' raises (the failed [assert], the
    InvalidParameter of the specification) and yields no operator, so no
    call can follow; with a transform that reports it, and with no
    transform, construction succeeds and stores its arguments. *)
Theorem L1_init_unitary_precondition :
  forall (Lambda : R) (T : LinearMap),
    ((~ In "unitary"%string (property T)
      /\ L1Regularizer.__init__ Lambda (Some T) = Raise AssertionError
      /\ forall op, L1Regularizer.__init__ Lambda (Some T) <> Ok op)
     \/
     (In "unitary"%string (property T)
      /\ L1Regularizer.__init__ Lambda (Some T)
         = Ok (L1Regularizer.mk Lambda (Some T))))
    /\ L1Regularizer.__init__ Lambda None = Ok (L1Regularizer.mk Lambda None).
Proof.
  intros Lambda T. split; [| reflexivity].
  unfold L1Regularizer.__init__.
  destruct (reports_unitary T) eqn:E.
  - right. split; [apply reports_unitary_In; exact E | reflexivity].
  - left. split; [| split].
    + intros Hin. apply reports_unitary_In in Hin. congruence.
    + reflexivity.
    + intros op Hop. discriminate Hop.
Qed.

(* ------------------------------------------------------------------ *)
(** ** Elementwise operations on operands of one shape *)

Lemma broadcast2_same_length {A B C : Type} (f : A -> B -> C)
  (xs : list A) (ys : list B) :
  List.length xs = List.length ys -> broadcast2 f xs ys = Ok (map2 f xs ys).
Proof.
  intros Hlen. unfold broadcast2.
  rewrite Hlen, Nat.eqb_refl. reflexivity.
Qed.

Lemma map2_map {A B C D : Type} (f : B -> C -> D) (g : A -> B) (h : A -> C)
  (xs : list A) :
  map2 f (map g xs) (map h xs) = map (fun x => f (g x) (h x)) xs.
Proof.
  induction xs as [| x xs IH]; simpl; [reflexivity | rewrite IH; reflexivity].
Qed.

Lemma map_id_ext {A : Type} (f : A -> A) (xs : list A) :
  (forall x, f x = x) -> map f xs = xs.
Proof.
  intros Hf. induction xs as [| x xs IH]; simpl; [reflexivity |].
  rewrite Hf, IH. reflexivity.
Qed.

(** A one-element operand on the left always broadcasts. *)
Lemma broadcast2_singleton_l {A B C : Type} (f : A -> B -> C) (x : A) (ys : list B) :
  broadcast2 f [x] ys = Ok (map (f x) ys).
Proof.
  unfold broadcast2. destruct ys as [| y [| y' ys]]; reflexivity.
Qed.

Lemma promote_rr_diag (d : torch.rdtype) : torch.promote_rr d d = d.
Proof. destruct d; reflexivity. Qed.

Lemma rdtype_eqb_refl (d : torch.rdtype) : torch.rdtype_eqb d d = true.
Proof. destruct d; reflexivity. Qed.

(* ------------------------------------------------------------------ *)
(** ** The phase computed by [Prox._complex] *)

(** On a complex tensor [_complex] returns, element by element,
    [cos + i sin] of [atan(imag / real)], and leaves [self] alone. *)
Lemma complex_run (Self : Type) (s : Self) (d : torch.cdtype) (zs : list cnum) :
  _complex (torch.TCplx (torch.CT d zs)) s
  = (Ok (torch.CT d (map atan_phase zs)), s).
Proof.
  unfold _complex, bind, lift, ret. simpl.
  unfold torch.truediv. simpl.
  rewrite broadcast2_same_length by (rewrite !length_map; reflexivity).
  simpl. unfold torch.complex. simpl.
  rewrite rdtype_eqb_refl, promote_rr_diag.
  rewrite broadcast2_same_length by (rewrite !length_map; reflexivity).
  rewrite map2_map, map2_map, !map_map.
  destruct d; reflexivity.
Qed.

(** The complex branch of [__call__], once [_complex] has run. *)
Lemma call_complex (Self : Type) (P : Prox Self) (s : Self)
  (d : torch.cdtype) (zs : list cnum) :
  d <> torch.complex32 ->
  __call__ (torch.TCplx (torch.CT d zs)) s
  = match _apply (torch.abs (torch.TCplx (torch.CT d zs))) s with
    | (Ok a, s') => (torch.mul (torch.TCplx (torch.CT d (map atan_phase zs))) a, s')
    | (Raise e, s') => (Raise e, s')
    end.
Proof.
  intros Hd. unfold __call__.
  destruct d; [exfalso; apply Hd; reflexivity | |];
    cbn [torch.dtype_of torch.cdtype_of torch.dtype_eqb torch.cdtype_eqb
         torch.cfloat torch.cdouble orb];
    rewrite bind_unfold, complex_run, bind_unfold;
    match goal with
    | |- context [_apply ?w s] => destruct (_apply w s) as [[a | e] s']
    end; reflexivity.
Qed.

(* ------------------------------------------------------------------ *)
(** ** The box constraint *)

Lemma fmax_finite (x y : R) : fmax (Fin x) (Fin y) = Fin (Rmax x y).
Proof.
  simpl. case_Rltb.
  - rewrite Rmax_right by lra. reflexivity.
  - rewrite Rmax_left by lra. reflexivity.
Qed.

Lemma fmin_finite (x y : R) : fmin (Fin x) (Fin y) = Fin (Rmin x y).
Proof.
  simpl. case_Rltb.
  - rewrite Rmin_right by lra. reflexivity.
  - rewrite Rmin_left by lra. reflexivity.
Qed.

Ltac minmax := unfold Rmin, Rmax; repeat destruct (Rle_dec _ _); lra.

Lemma fclamp_finite (lo hi x : R) :
  torch.fclamp lo hi (Fin x) = Fin (Rmin (Rmax x lo) hi).
Proof. unfold torch.fclamp. rewrite fmax_finite. apply fmin_finite. Qed.

Lemma Box_apply_real (op : BoxConstraint.t) (t : torch.RTensor) :
  evaluate op (torch.TReal t)
  = Ok (torch.TReal (torch.RT (torch.rdtype_of t)
         (map (torch.fclamp (BoxConstraint.l op) (BoxConstraint.u op)) (torch.rvals t)))).
Proof. destruct t as [d xs]. reflexivity. Qed.

(** C7.  On a real array the box constraint returns the elementwise clamp
    [min(max(v[i], lower), upper)] (whatever the order of the bounds, so in
    particular when [lower <= upper]); with [lower = 0] and [upper = 1] the
    array [-1, 0.5, 2] becomes [0, 0.5, 1]; and the stored [Lambda] has no
    effect on the output, for any input. *)
Theorem Box_clamp_exact :
  forall (Lambda lower upper : R) (d : torch.rdtype),
    (forall xs : list R,
        evaluate (BoxConstraint.mk lower upper Lambda) (finite d xs)
        = Ok (finite d (map (fun x => Rmin (Rmax x lower) upper) xs)))
    /\ evaluate (BoxConstraint.mk 0 1 Lambda) (finite d [-1; 0.5; 2])
       = Ok (finite d [0; 0.5; 1])
    /\ (forall (Lambda' : R) (v : torch.Tensor),
           evaluate (BoxConstraint.mk lower upper Lambda) v
           = evaluate (BoxConstraint.mk lower upper Lambda') v).
Proof.
  intros Lambda lower upper d.
  assert (Hall : forall (lo hi : R) (xs : list R),
             evaluate (BoxConstraint.mk lo hi Lambda) (finite d xs)
             = Ok (finite d (map (fun x => Rmin (Rmax x lo) hi) xs))).
  { intros lo hi xs. unfold finite. rewrite Box_apply_real. simpl.
    rewrite !map_map. do 3 f_equal.
    apply map_ext. intros x. apply fclamp_finite. }
  split; [apply Hall | split].
  - rewrite Hall. simpl.
    replace (Rmin (Rmax (-1) 0) 1) with 0 by minmax.
    replace (Rmin (Rmax 0.5 0) 1) with 0.5 by minmax.
    replace (Rmin (Rmax 2 0) 1) with 1 by minmax.
    reflexivity.
  - intros Lambda' v. destruct v as [[d' xs] | [d' zs]]; [reflexivity |].
    unfold evaluate.
    destruct d'; [reflexivity | |]; rewrite !call_complex by discriminate;
      reflexivity.
Qed.

(* ------------------------------------------------------------------ *)
(** ** The L1 operator: soft-thresholding *)

Lemma softshrink_finite (Lambda x : R) :
  0 <= Lambda ->
  torch.nn.softshrink Lambda (Fin x) = Fin (soft_threshold Lambda x).
Proof.
  intros HL. unfold torch.nn.softshrink, soft_threshold. simpl.
  destruct (sgn_cases x) as [[Hx Hs] | [[Hx Hs] | [Hx Hs]]]; rewrite Hs;
    unfold Rabs; destruct (Rcase_abs x); try lra;
    unfold Rmax; destruct (Rle_dec _ _);
    repeat case_Rltb; f_equal; lra.
Qed.

Lemma soft_threshold_small (Lambda x : R) :
  Rabs x <= Lambda -> soft_threshold Lambda x = 0.
Proof.
  intros H. unfold soft_threshold.
  rewrite Rmax_right by lra. ring.
Qed.

Lemma soft_threshold_large (Lambda x : R) :
  Lambda < Rabs x -> soft_threshold Lambda x = x - Lambda * sgn x.
Proof.
  intros H. unfold soft_threshold.
  rewrite Rmax_left by lra.
  destruct (sgn_cases x) as [[Hx Hs] | [[Hx Hs] | [Hx Hs]]]; rewrite Hs.
  - rewrite Rabs_left by lra. ring.
  - subst x. rewrite Rabs_R0. ring.
  - rewrite Rabs_right by lra. ring.
Qed.

Lemma L1_apply_real (Lambda : R) (d : torch.rdtype) (xs : list fnum) :
  0 <= Lambda ->
  evaluate (L1Regularizer.mk Lambda None) (torch.TReal (torch.RT d xs))
  = Ok (torch.TReal (torch.RT d (map (torch.nn.softshrink Lambda) xs))).
Proof.
  intros HL. run. unfold torch.nn.Softshrink_call. simpl.
  rewrite Rltb_false by lra. reflexivity.
Qed.

Lemma L1_apply_finite (Lambda : R) (d : torch.rdtype) (xs : list R) :
  0 <= Lambda ->
  evaluate (L1Regularizer.mk Lambda None) (finite d xs)
  = Ok (finite d (map (soft_threshold Lambda) xs)).
Proof.
  intros HL. unfold finite. rewrite L1_apply_real by exact HL.
  rewrite !map_map. do 3 f_equal.
  apply map_ext. intros x. apply softshrink_finite. exact HL.
Qed.

(** C2.  For [Lambda >= 0] the L1 operator without a transform maps a real
    array elementwise to [sign(v[i]) * max(|v[i]| - Lambda, 0)]; for a
    scalar input it returns 0 when [|v| <= Lambda] and
    [v - Lambda * sign(v)] otherwise. *)
Theorem L1_soft_threshold_exact :
  forall (Lambda : R) (d : torch.rdtype),
    0 <= Lambda ->
    (forall xs : list R,
        evaluate (L1Regularizer.mk Lambda None) (finite d xs)
        = Ok (finite d (map (soft_threshold Lambda) xs)))
    /\ (forall x : R, Rabs x <= Lambda ->
           evaluate (L1Regularizer.mk Lambda None) (finite d [x])
           = Ok (finite d [0]))
    /\ (forall x : R, Lambda < Rabs x ->
           evaluate (L1Regularizer.mk Lambda None) (finite d [x])
           = Ok (finite d [x - Lambda * sgn x])).
Proof.
  intros Lambda d HL.
  split; [intros xs; apply L1_apply_finite; exact HL | split];
    intros x Hx; rewrite L1_apply_finite by exact HL; simpl.
  - rewrite soft_threshold_small by exact Hx. reflexivity.
  - rewrite soft_threshold_large by exact Hx. reflexivity.
Qed.

(** The examples of the specification: with [Lambda = 2], 5 becomes 3,
    -5 becomes -3 and 1 becomes 0. *)
Lemma L1_soft_threshold_exact_witness :
  0 <= 2
  /\ evaluate (L1Regularizer.mk 2 None) (finite torch.float32 [5; -5; 1])
     = Ok (finite torch.float32 [3; -3; 0]).
Proof.
  assert (H2 : 0 <= 2) by lra.
  split; [exact H2 |].
  destruct (L1_soft_threshold_exact 2 torch.float32 H2) as [Hall _].
  rewrite Hall. simpl.
  rewrite (soft_threshold_large 2 5) by (rewrite Rabs_right; lra).
  rewrite (soft_threshold_large 2 (-5)) by (rewrite Rabs_left; lra).
  rewrite (soft_threshold_small 2 1) by (rewrite Rabs_right; lra).
  unfold sgn. rewrite by_sign_pos by lra. rewrite by_sign_neg by lra.
  replace (5 - 2 * 1) with 3 by lra.
  replace (-5 - 2 * -1) with (-3) by lra.
  reflexivity.
Defined.

(* ------------------------------------------------------------------ *)
(** ** Calls do not change the operator *)

Lemma readonly_ret {Self A : Type} (a : A) : readonly (ret a : M Self A).
Proof. intros s. reflexivity. Qed.

Lemma readonly_lift {Self A : Type} (r : result A) : readonly (lift r : M Self A).
Proof. intros s. reflexivity. Qed.

Lemma readonly_self {Self : Type} : readonly (self : M Self Self).
Proof. intros s. reflexivity. Qed.

Lemma readonly_bind {Self A B : Type} (m : M Self A) (k : A -> M Self B) :
  readonly m -> (forall a, readonly (k a)) -> readonly (bind m k).
Proof.
  intros Hm Hk s. rewrite bind_unfold.
  specialize (Hm s). destruct (m s) as [[a | e] s']; simpl in Hm; subst s'.
  - apply Hk.
  - reflexivity.
Qed.

Ltac readonly_steps :=
  repeat first
    [ apply readonly_bind; [| intro]
    | apply readonly_ret
    | apply readonly_lift
    | apply readonly_self ].

Lemma complex_readonly (Self : Type) (v : torch.Tensor) :
  readonly (_complex v : M Self torch.CTensor).
Proof. unfold _complex. readonly_steps. Qed.

(** [__call__] leaves [self] alone as soon as [_apply] does. *)
Lemma call_readonly (Self : Type) (P : Prox Self) :
  (forall v, readonly (_apply v)) -> forall v, readonly (__call__ v).
Proof.
  intros Happly v. unfold __call__.
  destruct (_ || _).
  - apply readonly_bind; [apply complex_readonly | intro e].
    apply readonly_bind; [apply Happly | intro a].
    apply readonly_lift.
  - apply Happly.
Qed.

Lemma L1_apply_readonly (v : torch.Tensor) : readonly (L1Regularizer._apply v).
Proof.
  unfold L1Regularizer._apply.
  apply readonly_bind; [apply readonly_self | intro s].
  apply readonly_bind; [destruct (L1Regularizer.T s); readonly_steps | intro w].
  readonly_steps.
Qed.

Lemma L2_apply_readonly (v : torch.Tensor) : readonly (L2Regularizer._apply v).
Proof. unfold L2Regularizer._apply. readonly_steps. Qed.

Lemma SquaredL2_apply_readonly (v : torch.Tensor) :
  readonly (SquaredL2Regularizer._apply v).
Proof. unfold SquaredL2Regularizer._apply. readonly_steps. Qed.

Lemma Box_apply_readonly (v : torch.Tensor) : readonly (BoxConstraint._apply v).
Proof. unfold BoxConstraint._apply. readonly_steps. Qed.

(** Two calls in a row on an operator whose [_apply] only reads. *)
Lemma call_twice_readonly (Self : Type) (P : Prox Self) (op : Self) (v : torch.Tensor) :
  (forall w, readonly (_apply w)) ->
  after_call op v = op /\ call_twice op v = (evaluate op v, evaluate op v, op).
Proof.
  intros Happly.
  pose proof (call_readonly Self P Happly v op) as Hro.
  unfold after_call, call_twice, evaluate. split; [exact Hro |].
  destruct (__call__ v op) as [r1 op1] eqn:E1. simpl in Hro. subst op1.
  rewrite E1. reflexivity.
Qed.

(** C9.  A call never changes the construction-time parameters of the
    operator (Lambda, transform, bounds): for each of the four operators
    the operator after a call is the operator before it, and two calls in a
    row on equal inputs return equal outputs.  The methods reach no state
    but the attributes of [self]; the transform and the torch primitives
    are functions of their arguments. *)
Theorem call_never_changes_operator :
  forall v : torch.Tensor,
    (forall op : L1Regularizer.t,
        after_call op v = op
        /\ call_twice op v = (evaluate op v, evaluate op v, op))
    /\ (forall op : L2Regularizer.t,
           after_call op v = op
           /\ call_twice op v = (evaluate op v, evaluate op v, op))
    /\ (forall op : SquaredL2Regularizer.t,
           after_call op v = op
           /\ call_twice op v = (evaluate op v, evaluate op v, op))
    /\ (forall op : BoxConstraint.t,
           after_call op v = op
           /\ call_twice op v = (evaluate op v, evaluate op v, op)).
Proof.
  intros v. split; [| split; [| split]]; intros op; apply call_twice_readonly.
  - exact L1_apply_readonly.
  - exact L2_apply_readonly.
  - exact SquaredL2_apply_readonly.
  - exact Box_apply_readonly.
Qed.

(** The notion is not vacuous: a method that assigns an attribute is not
    read-only. *)
Lemma setattr_not_readonly : ~ readonly (setattr true : M bool unit).
Proof. intros H. specialize (H false). discriminate H. Qed.

(* ------------------------------------------------------------------ *)
(** ** What each [_apply] computes *)


Lemma L2_apply_run (v : torch.Tensor) (s : L2Regularizer.t) :
  L2Regularizer._apply v s
  = (torch.mul (torch.TReal (L2Regularizer.scale (L2Regularizer.Lambda s) v)) v, s).
Proof.
  unfold L2Regularizer._apply, bind, self, ret, lift.
  destruct (torch.mul _ v); reflexivity.
Qed.

Lemma SquaredL2_apply_run (v : torch.Tensor) (s : SquaredL2Regularizer.t) :
  SquaredL2Regularizer._apply v s
  = (Ok (torch.div v (1 + 2 * SquaredL2Regularizer.Lambda s)), s).
Proof. reflexivity. Qed.

Lemma Box_apply_run (v : torch.Tensor) (s : BoxConstraint.t) :
  BoxConstraint._apply v s
  = (torch.clamp v (BoxConstraint.l s) (BoxConstraint.u s), s).
Proof.
  unfold BoxConstraint._apply, bind, self, ret, lift.
  destruct (torch.clamp v _ _); reflexivity.
Qed.

(* ------------------------------------------------------------------ *)
(** ** The L2 operator: shrinkage of the whole array *)

Lemma sum_squares_nonneg (xs : list R) :
  0 <= fold_right Rplus 0 (map (fun x => x * x) xs).
Proof.
  induction xs as [| x xs IH]; simpl; [lra | nra].
Qed.

Lemma fsum_cons (a : fnum) (l : list fnum) : fsum (a :: l) = fadd a (fsum l).
Proof. reflexivity. Qed.

Lemma fsum_squares_finite (xs : list R) :
  fsum (map (fun x => fmul x x) (map Fin xs))
  = Fin (fold_right Rplus 0 (map (fun x => x * x) xs)).
Proof.
  induction xs as [| x xs IH]; [reflexivity |].
  cbn [map]. rewrite fsum_cons, IH. reflexivity.
Qed.

Lemma norm_finite (d : torch.rdtype) (xs : list R) :
  torch.linalg.norm (finite d xs) = Fin (norm2 xs).
Proof.
  unfold finite, torch.linalg.norm, norm2. simpl.
  rewrite fsum_squares_finite. simpl.
  rewrite Rltb_false; [reflexivity |].
  pose proof (sum_squares_nonneg xs). lra.
Qed.

Lemma L2_scale_unfold (Lambda : R) (v : torch.Tensor) :
  L2Regularizer.scale Lambda v = torch.RT torch.float32 [scale_item Lambda v].
Proof. reflexivity. Qed.

(** On a real tensor the L2 operator multiplies every element by the one
    element of [scale]. *)
Lemma L2_apply_real (Lambda : R) (d : torch.rdtype) (xs : list fnum) :
  evaluate (L2Regularizer.mk Lambda) (torch.TReal (torch.RT d xs))
  = Ok (torch.TReal (torch.RT (torch.promote_rr torch.float32 d)
         (map (fmul (scale_item Lambda (torch.TReal (torch.RT d xs)))) xs))).
Proof.
  unfold evaluate. rewrite call_real.
  change (_apply (torch.TReal (torch.RT d xs)) (L2Regularizer.mk Lambda))
    with (L2Regularizer._apply (torch.TReal (torch.RT d xs)) (L2Regularizer.mk Lambda)).
  rewrite L2_apply_run, L2_scale_unfold. simpl.
  rewrite broadcast2_singleton_l. reflexivity.
Qed.

Lemma scale_item_finite (Lambda : R) (d : torch.rdtype) (xs : list R) :
  0 < Rmax Lambda (norm2 xs) ->
  scale_item Lambda (finite d xs) = Fin (1 - Lambda / Rmax Lambda (norm2 xs)).
Proof.
  intros Hpos. unfold scale_item.
  rewrite norm_finite, fmax_finite, fdiv_finite by lra.
  reflexivity.
Qed.

(** The formula of the L2 operator, wherever the denominator is not zero,
    that is unless [Lambda <= 0] and the array is all zeros. *)
Lemma L2_formula (Lambda : R) (d : torch.rdtype) (xs : list R) :
  0 < Rmax Lambda (norm2 xs) ->
  evaluate (L2Regularizer.mk Lambda) (finite d xs)
  = Ok (finite (torch.promote_rr torch.float32 d)
          (map (fun x => (1 - Lambda / Rmax Lambda (norm2 xs)) * x) xs)).
Proof.
  intros Hpos. unfold finite at 1. rewrite L2_apply_real.
  fold (finite d xs). rewrite scale_item_finite by exact Hpos.
  unfold finite. rewrite !map_map. reflexivity.
Qed.

(** With a positive [Lambda], an array of norm at most [Lambda] is sent to
    the zero array. *)
Lemma L2_shrinks_to_zero (Lambda : R) (d : torch.rdtype) (xs : list R) :
  0 < Lambda -> norm2 xs <= Lambda ->
  evaluate (L2Regularizer.mk Lambda) (finite d xs)
  = Ok (finite (torch.promote_rr torch.float32 d) (map (fun _ => 0) xs)).
Proof.
  intros HL Hn.
  rewrite L2_formula by (rewrite Rmax_left; lra).
  rewrite Rmax_left by lra. do 2 f_equal.
  apply map_ext. intros x. field. lra.
Qed.

(** With [Lambda = 0], an array that is not all zeros is returned as it
    is. *)
Lemma L2_zero_Lambda_nonzero_input (d : torch.rdtype) (xs : list R) :
  0 < norm2 xs ->
  evaluate (L2Regularizer.mk 0) (finite d xs)
  = Ok (finite (torch.promote_rr torch.float32 d) xs).
Proof.
  intros Hn.
  rewrite L2_formula by (rewrite Rmax_right; lra).
  rewrite Rmax_right by lra. do 2 f_equal.
  apply map_id_ext. intros x. field. lra.
Qed.

Lemma scale_item_zero_over_zero (d : torch.rdtype) (xs : list R) :
  norm2 xs = 0 -> scale_item 0 (finite d xs) = NaN.
Proof.
  intros Hn. unfold scale_item.
  rewrite norm_finite, Hn, fmax_finite.
  rewrite Rmax_left by lra. simpl.
  rewrite !by_sign_zero. reflexivity.
Qed.

(** C3.  The L2 operator with [Lambda = 0] on the one-element array [0.0]:
    the norm is at most [Lambda], so the output should be the zero array,
    but [max(Lambda, norm)] is 0, the quotient is 0/0, [scale] is NaN and
    so is the output. *)
Theorem L2_norm_equal_Lambda_zero_gives_nan :
  norm2 [0] <= 0
  /\ evaluate (L2Regularizer.mk 0) (finite torch.float32 [0])
     = Ok (torch.TReal (torch.RT torch.float32 [NaN]))
  /\ evaluate (L2Regularizer.mk 0) (finite torch.float32 [0])
     <> Ok (finite torch.float32 [0]).
Proof.
  assert (Hn : norm2 [0] = 0).
  { unfold norm2. simpl. replace (0 * 0 + 0) with 0 by ring. apply sqrt_0. }
  assert (He : evaluate (L2Regularizer.mk 0) (finite torch.float32 [0])
               = Ok (torch.TReal (torch.RT torch.float32 [NaN]))).
  { unfold finite. rewrite L2_apply_real.
    fold (finite torch.float32 [0]).
    rewrite scale_item_zero_over_zero by exact Hn. reflexivity. }
  split; [lra | split; [exact He |]].
  rewrite He. unfold finite. simpl. intros H. discriminate H.
Qed.

(* ------------------------------------------------------------------ *)
(** ** Zero regularization *)

Lemma soft_threshold_zero (x : R) : soft_threshold 0 x = x.
Proof.
  unfold soft_threshold.
  pose proof (Rabs_pos x) as Hp.
  rewrite Rmax_left by lra.
  destruct (sgn_cases x) as [[Hx Hs] | [[Hx Hs] | [Hx Hs]]]; rewrite Hs.
  - rewrite Rabs_left by lra. ring.
  - subst x. ring.
  - rewrite Rabs_right by lra. ring.
Qed.

(** The L1 operator without transform and with [Lambda = 0] returns a real
    array unchanged. *)
Lemma L1_zero_Lambda_identity (d : torch.rdtype) (xs : list R) :
  evaluate (L1Regularizer.mk 0 None) (finite d xs) = Ok (finite d xs).
Proof.
  rewrite L1_apply_finite by apply Rle_refl. do 2 f_equal.
  apply map_id_ext. apply soft_threshold_zero.
Qed.

(** The squared-L2 operator with [Lambda = 0] returns a real array
    unchanged. *)
Lemma SquaredL2_zero_Lambda_identity (d : torch.rdtype) (xs : list R) :
  evaluate (SquaredL2Regularizer.mk 0) (finite d xs) = Ok (finite d xs).
Proof.
  unfold finite, evaluate. rewrite call_real. simpl.
  rewrite map_map. do 3 f_equal.
  apply map_ext. intros x.
  rewrite fdiv_finite by lra. f_equal. field.
Qed.

(** C4.  The L2 operator with [Lambda = 0] does not return the zero array
    unchanged: every element of the output is NaN, from the quotient 0/0
    in [scale]. *)
Theorem L2_zero_Lambda_changes_zero_array :
  evaluate (L2Regularizer.mk 0) (finite torch.float64 [0; 0; 0])
  = Ok (torch.TReal (torch.RT torch.float64 [NaN; NaN; NaN]))
  /\ evaluate (L2Regularizer.mk 0) (finite torch.float64 [0; 0; 0])
     <> Ok (finite torch.float64 [0; 0; 0]).
Proof.
  assert (Hn : norm2 [0; 0; 0] = 0).
  { unfold norm2. simpl.
    replace (0 * 0 + (0 * 0 + (0 * 0 + 0))) with 0 by ring. apply sqrt_0. }
  assert (He : evaluate (L2Regularizer.mk 0) (finite torch.float64 [0; 0; 0])
               = Ok (torch.TReal (torch.RT torch.float64 [NaN; NaN; NaN]))).
  { unfold finite. rewrite L2_apply_real.
    fold (finite torch.float64 [0; 0; 0]).
    rewrite scale_item_zero_over_zero by exact Hn. reflexivity. }
  split; [exact He |].
  rewrite He. unfold finite. simpl. intros H. discriminate H.
Qed.

(* ------------------------------------------------------------------ *)
(** ** Which calls produce a result *)

Lemma mul_complex_real (d1 : torch.cdtype) (d2 : torch.rdtype)
  (zs : list cnum) (ys : list fnum) :
  List.length ys = List.length zs ->
  torch.mul (torch.TCplx (torch.CT d1 zs)) (torch.TReal (torch.RT d2 ys))
  = Ok (torch.TCplx (torch.CT (torch.promote_cr d1 d2)
          (map2 cmul zs (map of_real ys)))).
Proof.
  intros Hlen. simpl.
  rewrite broadcast2_same_length by (rewrite length_map; symmetry; exact Hlen).
  reflexivity.
Qed.

(** An operator whose [_apply] keeps real tensors real and of the same
    size produces a result on every real tensor and on every tensor that
    takes the complex branch. *)
Lemma total_of_keeps_real_shape (Self : Type) (P : Prox Self) (op : Self)
  (v : torch.Tensor) :
  keeps_real_shape op ->
  torch.dtype_of v <> torch.Complex torch.complex32 ->
  exists r, evaluate op v = Ok r.
Proof.
  intros Hk Hd. unfold evaluate.
  destruct v as [t | [d zs]].
  - rewrite call_real.
    destruct (Hk t) as [t' [op' [Happ _]]]. rewrite Happ.
    eexists. reflexivity.
  - assert (Hd' : d <> torch.complex32) by (intros ->; apply Hd; reflexivity).
    rewrite call_complex by exact Hd'.
    destruct (Hk (torch.RT (torch.real_of d) (map cabs zs)))
      as [[d2 ys] [op' [Happ Hlen]]].
    simpl in Hlen. rewrite length_map in Hlen.
    change (torch.abs (torch.TCplx (torch.CT d zs)))
      with (torch.TReal (torch.RT (torch.real_of d) (map cabs zs))).
    rewrite Happ.
    rewrite mul_complex_real by (rewrite length_map; exact Hlen).
    eexists. reflexivity.
Qed.



Lemma Box_keeps_real_shape (op : BoxConstraint.t) : keeps_real_shape op.
Proof.
  intros [d xs]. eexists. exists op. split; [reflexivity |].
  simpl. apply length_map.
Qed.

Lemma L1_keeps_real_shape (Lambda : R) (T : option LinearMap) :
  0 <= Lambda -> transform_keeps_shape T ->
  keeps_real_shape (L1Regularizer.mk Lambda T).
Proof.
  intros HL HT [d xs].
  change (_apply (torch.TReal (torch.RT d xs)) (L1Regularizer.mk Lambda T))
    with (L1Regularizer._apply (torch.TReal (torch.RT d xs))
            (L1Regularizer.mk Lambda T)).
  unfold L1Regularizer._apply, bind, self, ret, lift. simpl.
  destruct T as [T' |]; simpl in *.
  - destruct (HT (torch.RT d xs)) as [[d' xs'] [HTcall Hlen]].
    rewrite HTcall. unfold torch.nn.Softshrink_call. simpl.
    rewrite Rltb_false by lra.
    eexists. eexists. split; [reflexivity |].
    simpl in *. rewrite length_map. exact Hlen.
  - unfold torch.nn.Softshrink_call. simpl.
    rewrite Rltb_false by lra.
    eexists. eexists. split; [reflexivity |].
    simpl. apply length_map.
Qed.








(* ------------------------------------------------------------------ *)
(** ** The phase of a complex input *)

Lemma sum_two_squares_pos (x y : R) : x <> 0 -> 0 < x * x + y * y.
Proof. intros Hx. nra. Qed.

Lemma cabs_finite (x y : R) :
  cabs (Cx (Fin x) (Fin y)) = Fin (sqrt (x * x + y * y)).
Proof.
  unfold cabs. simpl. rewrite Rltb_false by nra. reflexivity.
Qed.

Lemma sqrt_one_plus_square (x y : R) :
  x <> 0 -> sqrt (1 + (y / x)²) = sqrt (x * x + y * y) / Rabs x.
Proof.
  intros Hx.
  replace (1 + (y / x)²) with ((x * x + y * y) / x²)
    by (unfold Rsqr; field; exact Hx).
  rewrite sqrt_div_alt by (unfold Rsqr; nra).
  rewrite sqrt_Rsqr_abs. reflexivity.
Qed.

(** What the arctangent formula gives off the imaginary axis. *)
Lemma atan_phase_finite (x y : R) :
  x <> 0 ->
  atan_phase (Cx (Fin x) (Fin y))
  = Cx (Fin (Rabs x / sqrt (x * x + y * y)))
       (Fin (y / x * (Rabs x / sqrt (x * x + y * y)))).
Proof.
  intros Hx. unfold atan_phase. simpl re. simpl im.
  rewrite fdiv_finite by exact Hx. simpl.
  rewrite cos_atan, sin_atan, sqrt_one_plus_square by exact Hx.
  pose proof (sqrt_lt_R0 _ (sum_two_squares_pos x y Hx)) as Hn.
  pose proof (Rabs_pos_lt x Hx) as Ha.
  f_equal; f_equal; field; split; lra.
Qed.

Lemma unit_direction_finite (x y : R) :
  x <> 0 ->
  unit_direction (Cx (Fin x) (Fin y))
  = Cx (Fin (x / sqrt (x * x + y * y))) (Fin (y / sqrt (x * x + y * y))).
Proof.
  intros Hx. unfold unit_direction. rewrite cabs_finite. simpl re. simpl im.
  pose proof (sqrt_lt_R0 _ (sum_two_squares_pos x y Hx)) as Hn.
  rewrite !fdiv_finite by lra. reflexivity.
Qed.

(** In the right half-plane the formula gives the direction [z / |z|]. *)
Lemma atan_phase_right (x y : R) :
  0 < x -> atan_phase (Cx (Fin x) (Fin y)) = unit_direction (Cx (Fin x) (Fin y)).
Proof.
  intros Hx.
  rewrite atan_phase_finite, unit_direction_finite by lra.
  rewrite Rabs_right by lra.
  pose proof (sqrt_lt_R0 _ (sum_two_squares_pos x y ltac:(lra))) as Hn.
  f_equal; f_equal; field; lra.
Qed.

(** In the left half-plane it gives the opposite direction: the quadrant
    is lost by [atan(imag / real)]. *)
Lemma atan_phase_left (x y : R) :
  x < 0 ->
  atan_phase (Cx (Fin x) (Fin y))
  = Cx (Fin (- (x / sqrt (x * x + y * y)))) (Fin (- (y / sqrt (x * x + y * y)))).
Proof.
  intros Hx.
  rewrite atan_phase_finite by lra.
  rewrite Rabs_left by lra.
  pose proof (sqrt_lt_R0 _ (sum_two_squares_pos x y ltac:(lra))) as Hn.
  f_equal; f_equal; field; lra.
Qed.

(** The complex branch, for an operator whose [_apply] only reads. *)
Lemma evaluate_complex (Self : Type) (P : Prox Self) (op : Self)
  (d : torch.cdtype) (zs : list cnum) :
  d <> torch.complex32 ->
  evaluate op (torch.TCplx (torch.CT d zs))
  = match evaluate op (torch.abs (torch.TCplx (torch.CT d zs))) with
    | Ok a => torch.mul (torch.TCplx (torch.CT d (map atan_phase zs))) a
    | Raise e => Raise e
    end.
Proof.
  intros Hd. unfold evaluate. rewrite call_complex by exact Hd.
  change (torch.abs (torch.TCplx (torch.CT d zs)))
    with (torch.TReal (torch.RT (torch.real_of d) (map cabs zs))).
  rewrite call_real.
  destruct (_apply _ op) as [[a | e] s']; reflexivity.
Qed.

(** Complex dispatch is magnitude-only processing recombined with the
    phase when every element lies in the right half-plane. *)
Lemma complex_dispatch_right_half_plane (Self : Type) (P : Prox Self) (op : Self)
  (d : torch.cdtype) (zs : list cnum) :
  d <> torch.complex32 ->
  Forall right_half_plane zs ->
  evaluate op (torch.TCplx (torch.CT d zs)) = recombined op (torch.CT d zs).
Proof.
  intros Hd Hzs. rewrite evaluate_complex by exact Hd.
  unfold recombined, phase. simpl torch.cdtype_of. simpl torch.cvals.
  replace (map unit_direction zs) with (map atan_phase zs); [reflexivity |].
  apply map_ext_in. intros z Hz.
  rewrite Forall_forall in Hzs.
  destruct (Hzs z Hz) as [x [y [-> Hx]]].
  apply atan_phase_right. exact Hx.
Qed.

Lemma cmul_finite_real (a b c : R) :
  cmul (Cx (Fin a) (Fin b)) (of_real (Fin c)) = Cx (Fin (a * c)) (Fin (b * c)).
Proof. unfold cmul, of_real. simpl. f_equal; f_equal; ring. Qed.

Lemma sqrt_9 : sqrt (-3 * -3 + 0 * 0) = 3.
Proof.
  replace (-3 * -3 + 0 * 0) with (3 * 3) by ring.
  apply sqrt_square. lra.
Qed.

(** C1.  The L1 operator with [Lambda = 1] on the one-element complex
    array [-3 + 0i], whose element is nonzero: the magnitude 3 is
    thresholded to 2 and the phase [v / |v|] is -1, so the recombination
    is [-2 + 0i]; the call returns [2 + 0i], because
    [atan(imag / real)] is [atan(0) = 0] and the computed phase is 1. *)
Theorem complex_dispatch_wrong_in_left_half_plane :
  evaluate (L1Regularizer.mk 1 None)
    (torch.TCplx (torch.CT torch.complex64 [Cx (Fin (-3)) (Fin 0)]))
  = Ok (torch.TCplx (torch.CT torch.complex64 [Cx (Fin 2) (Fin 0)]))
  /\ recombined (L1Regularizer.mk 1 None)
       (torch.CT torch.complex64 [Cx (Fin (-3)) (Fin 0)])
     = Ok (torch.TCplx (torch.CT torch.complex64 [Cx (Fin (-2)) (Fin 0)]))
  /\ evaluate (L1Regularizer.mk 1 None)
       (torch.TCplx (torch.CT torch.complex64 [Cx (Fin (-3)) (Fin 0)]))
     <> recombined (L1Regularizer.mk 1 None)
          (torch.CT torch.complex64 [Cx (Fin (-3)) (Fin 0)]).
Proof.
  assert (Hmag : evaluate (L1Regularizer.mk 1 None)
                   (torch.abs (torch.TCplx
                      (torch.CT torch.complex64 [Cx (Fin (-3)) (Fin 0)])))
                 = Ok (finite torch.float32 [2])).
  { change (torch.abs (torch.TCplx
              (torch.CT torch.complex64 [Cx (Fin (-3)) (Fin 0)])))
      with (torch.TReal (torch.RT torch.float32 [cabs (Cx (Fin (-3)) (Fin 0))])).
    rewrite cabs_finite, sqrt_9.
    change (torch.TReal (torch.RT torch.float32 [Fin 3]))
      with (finite torch.float32 [3]).
    rewrite L1_apply_finite by lra. simpl.
    rewrite soft_threshold_large by (rewrite Rabs_right; lra).
    unfold sgn. rewrite by_sign_pos by lra.
    replace (3 - 1 * 1) with 2 by ring. reflexivity. }
  assert (Hcall : evaluate (L1Regularizer.mk 1 None)
                    (torch.TCplx (torch.CT torch.complex64 [Cx (Fin (-3)) (Fin 0)]))
                  = Ok (torch.TCplx (torch.CT torch.complex64 [Cx (Fin 2) (Fin 0)]))).
  { rewrite evaluate_complex by discriminate. rewrite Hmag.
    cbn [map]. rewrite atan_phase_left by lra. rewrite sqrt_9.
    unfold finite. cbn [map]. rewrite mul_complex_real by reflexivity.
    cbn [map map2]. rewrite cmul_finite_real.
    replace (- (-3 / 3) * 2) with 2 by field.
    replace (- (0 / 3) * 2) with 0 by field.
    reflexivity. }
  assert (Hspec : recombined (L1Regularizer.mk 1 None)
                    (torch.CT torch.complex64 [Cx (Fin (-3)) (Fin 0)])
                  = Ok (torch.TCplx (torch.CT torch.complex64 [Cx (Fin (-2)) (Fin 0)]))).
  { unfold recombined. rewrite Hmag.
    unfold phase. cbn [torch.cdtype_of torch.cvals map].
    rewrite unit_direction_finite by lra. rewrite sqrt_9.
    unfold finite. cbn [map]. rewrite mul_complex_real by reflexivity.
    cbn [map map2]. rewrite cmul_finite_real.
    replace (-3 / 3 * 2) with (-2) by field.
    replace (0 / 3 * 2) with 0 by field.
    reflexivity. }
  split; [exact Hcall | split; [exact Hspec |]].
  rewrite Hcall, Hspec. intros H.
  assert (H2 : 2 = -2) by congruence. lra.
Qed.

(* ------------------------------------------------------------------ *)
(** ** The phase on the imaginary axis *)

Lemma atan_phase_imaginary_pos (y : R) :
  0 < y -> atan_phase (Cx (Fin 0) (Fin y)) = Cx (Fin 0) (Fin 1).
Proof.
  intros Hy. unfold atan_phase. simpl.
  rewrite by_sign_zero, by_sign_pos by exact Hy. simpl.
  rewrite cos_PI2, sin_PI2. reflexivity.
Qed.

Lemma atan_phase_imaginary_neg (y : R) :
  y < 0 -> atan_phase (Cx (Fin 0) (Fin y)) = Cx (Fin 0) (Fin (-1)).
Proof.
  intros Hy. unfold atan_phase. simpl.
  rewrite by_sign_zero, by_sign_neg by exact Hy. simpl.
  rewrite cos_neg, sin_neg, cos_PI2, sin_PI2.
  f_equal.
Qed.

Lemma atan_phase_origin : atan_phase (Cx (Fin 0) (Fin 0)) = Cx NaN NaN.
Proof.
  unfold atan_phase. simpl. rewrite !by_sign_zero. reflexivity.
Qed.

(** C8.  In the phase computed by [_complex], an element with real part 0
    and imaginary part [y] becomes [i] when [y > 0] and [-i] when [y < 0]
    (the quotient is an infinity, its arctangent is [pi/2] or [-pi/2]),
    and NaN in both components when [y = 0] (the quotient is 0/0). *)
Theorem phase_on_imaginary_axis :
  forall (Self : Type) (s : Self) (d : torch.cdtype) (zs : list cnum)
         (k : nat) (y : R),
    nth_error zs k = Some (Cx (Fin 0) (Fin y)) ->
    exists out : torch.CTensor,
      fst (_complex (torch.TCplx (torch.CT d zs)) s) = Ok out
      /\ (0 < y -> nth_error (torch.cvals out) k = Some (Cx (Fin 0) (Fin 1)))
      /\ (y < 0 -> nth_error (torch.cvals out) k = Some (Cx (Fin 0) (Fin (-1))))
      /\ (y = 0 -> nth_error (torch.cvals out) k = Some (Cx NaN NaN)).
Proof.
  intros Self s d zs k y Hk.
  exists (torch.CT d (map atan_phase zs)).
  rewrite complex_run. split; [reflexivity |].
  simpl torch.cvals. rewrite nth_error_map, Hk. simpl option_map.
  split; [| split]; intros Hy.
  - rewrite atan_phase_imaginary_pos by exact Hy. reflexivity.
  - rewrite atan_phase_imaginary_neg by exact Hy. reflexivity.
  - subst y. rewrite atan_phase_origin. reflexivity.
Qed.

(** The example of the specification: the phase of [0 + 3i] is [i]. *)
Lemma phase_on_imaginary_axis_witness :
  nth_error [Cx (Fin 0) (Fin 3)] 0 = Some (Cx (Fin 0) (Fin 3))
  /\ exists out : torch.CTensor,
       fst (_complex (torch.TCplx (torch.CT torch.complex64 [Cx (Fin 0) (Fin 3)])) tt)
       = Ok out
       /\ nth_error (torch.cvals out) 0 = Some (Cx (Fin 0) (Fin 1)).
Proof.
  split; [reflexivity |].
  destruct (phase_on_imaginary_axis unit tt torch.complex64
              [Cx (Fin 0) (Fin 3)] 0%nat 3 eq_refl)
    as [out [Hout [Hpos _]]].
  exists out. split; [exact Hout | apply Hpos; lra].
Defined.

(* ================================================================== *)
(** * Further properties of the operators *)

(** ** The outputs solve the proximal problems of the docstrings *)

Lemma soft_threshold_cases (Lambda v : R) :
  0 <= Lambda ->
  (Lambda < v /\ soft_threshold Lambda v = v - Lambda)
  \/ (v < - Lambda /\ soft_threshold Lambda v = v + Lambda)
  \/ (- Lambda <= v <= Lambda /\ soft_threshold Lambda v = 0).
Proof.
  intros HL.
  destruct (Rlt_dec Lambda v) as [Hhi | Hhi].
  - left. split; [exact Hhi |].
    rewrite soft_threshold_large by (rewrite Rabs_right; lra).
    unfold sgn. rewrite by_sign_pos by lra. ring.
  - destruct (Rlt_dec v (- Lambda)) as [Hlo | Hlo].
    + right; left. split; [exact Hlo |].
      rewrite soft_threshold_large by (rewrite Rabs_left; lra).
      unfold sgn. rewrite by_sign_neg by lra. ring.
    + right; right. split; [lra |].
      apply soft_threshold_small. apply Rabs_le. lra.
Qed.

Lemma Rabs_ge_opp (x : R) : - x <= Rabs x.
Proof. rewrite <- (Rabs_Ropp x). apply Rle_abs. Qed.

(** One element: the soft threshold minimizes [1/2 (x - v)^2 + Lambda |x|]. *)
Lemma soft_threshold_minimizes (Lambda v x : R) :
  0 <= Lambda ->
  1 / 2 * ((soft_threshold Lambda v - v) * (soft_threshold Lambda v - v))
  + Lambda * Rabs (soft_threshold Lambda v)
  <= 1 / 2 * ((x - v) * (x - v)) + Lambda * Rabs x.
Proof.
  intros HL.
  pose proof (Rle_abs x) as Ha1. pose proof (Rabs_ge_opp x) as Ha2.
  destruct (soft_threshold_cases Lambda v HL)
    as [[Hv Hs] | [[Hv Hs] | [Hv Hs]]]; rewrite Hs.
  - rewrite (Rabs_right (v - Lambda)) by lra.
    generalize dependent (Rabs x). intros a Ha1 Ha2.
    assert (0 <= Lambda * (a - x)) by (apply Rmult_le_pos; lra).
    pose proof (Rle_0_sqr (x - v + Lambda)) as Hsq. unfold Rsqr in Hsq. nra.
  - rewrite (Rabs_left (v + Lambda)) by lra.
    generalize dependent (Rabs x). intros a Ha1 Ha2.
    assert (0 <= Lambda * (a + x)) by (apply Rmult_le_pos; lra).
    pose proof (Rle_0_sqr (x - v - Lambda)) as Hsq. unfold Rsqr in Hsq. nra.
  - rewrite Rabs_R0.
    generalize dependent (Rabs x). intros a Ha1 Ha2.
    assert (0 <= (Lambda - v) * (a + x)) by (apply Rmult_le_pos; lra).
    assert (0 <= (Lambda + v) * (a - x)) by (apply Rmult_le_pos; lra).
    pose proof (Rle_0_sqr x) as Hsq. unfold Rsqr in Hsq. nra.
Qed.

Lemma sum_list_cons (x : R) (xs : list R) : sum_list (x :: xs) = x + sum_list xs.
Proof. reflexivity. Qed.

Lemma sq_dist_cons (x v : R) (xs vs : list R) :
  sq_dist (x :: xs) (v :: vs) = (x - v) * (x - v) + sq_dist xs vs.
Proof. reflexivity. Qed.

Lemma l1_norm_cons (x : R) (xs : list R) : l1_norm (x :: xs) = Rabs x + l1_norm xs.
Proof. reflexivity. Qed.

Lemma sum_squares_cons (x : R) (xs : list R) :
  sum_squares (x :: xs) = x * x + sum_squares xs.
Proof. reflexivity. Qed.

Lemma L1_objective_cons (Lambda v x : R) (vs xs : list R) :
  L1_objective Lambda (v :: vs) (x :: xs)
  = (1 / 2 * ((x - v) * (x - v)) + Lambda * Rabs x) + L1_objective Lambda vs xs.
Proof.
  unfold L1_objective. rewrite sq_dist_cons, l1_norm_cons. ring.
Qed.

Lemma soft_threshold_list_minimizes (Lambda : R) (vs xs : list R) :
  0 <= Lambda ->
  List.length xs = List.length vs ->
  L1_objective Lambda vs (map (soft_threshold Lambda) vs) <= L1_objective Lambda vs xs.
Proof.
  intros HL. revert xs.
  induction vs as [| v vs IH]; intros [| x xs] Hlen; simpl in Hlen;
    try discriminate.
  - apply Rle_refl.
  - cbn [map]. rewrite !L1_objective_cons.
    pose proof (soft_threshold_minimizes Lambda v x HL).
    pose proof (IH xs ltac:(congruence)). lra.
Qed.

(** X1.  For [Lambda >= 0] the output of the L1 operator without transform
    on a real array [v] is a minimizer of
    [1/2 ||x - v||_2^2 + Lambda ||x||_1], the problem of its docstring:
    no array of the size of [v] has a smaller objective. *)
Theorem L1_output_minimizes_objective :
  forall (Lambda : R) (d : torch.rdtype) (vs : list R),
    0 <= Lambda ->
    exists out : list R,
      evaluate (L1Regularizer.mk Lambda None) (finite d vs) = Ok (finite d out)
      /\ List.length out = List.length vs
      /\ forall xs : list R,
           List.length xs = List.length vs ->
           L1_objective Lambda vs out <= L1_objective Lambda vs xs.
Proof.
  intros Lambda d vs HL.
  exists (map (soft_threshold Lambda) vs).
  split; [apply L1_apply_finite; exact HL | split].
  - apply length_map.
  - intros xs Hlen. apply soft_threshold_list_minimizes; assumption.
Qed.

Lemma L1_output_minimizes_objective_witness :
  0 <= 2
  /\ exists out : list R,
       evaluate (L1Regularizer.mk 2 None) (finite torch.float32 [5; 1])
       = Ok (finite torch.float32 out)
       /\ List.length out = 2%nat
       /\ forall xs : list R,
            List.length xs = 2%nat ->
            L1_objective 2 [5; 1] out <= L1_objective 2 [5; 1] xs.
Proof.
  assert (H2 : 0 <= 2) by lra.
  split; [exact H2 |].
  exact (L1_output_minimizes_objective 2 torch.float32 [5; 1] H2).
Defined.
Lemma SquaredL2_apply_finite (Lambda : R) (d : torch.rdtype) (vs : list R) :
  1 + 2 * Lambda <> 0 ->
  evaluate (SquaredL2Regularizer.mk Lambda) (finite d vs)
  = Ok (finite d (map (fun v => v / (1 + 2 * Lambda)) vs)).
Proof.
  intros Hc. unfold finite, evaluate. rewrite call_real. simpl.
  rewrite !map_map. do 3 f_equal.
  apply map_ext. intros v. apply fdiv_finite. exact Hc.
Qed.

Lemma ridge_minimizes (Lambda v x : R) :
  0 <= Lambda ->
  1 / 2 * ((v / (1 + 2 * Lambda) - v) * (v / (1 + 2 * Lambda) - v))
  + Lambda * (v / (1 + 2 * Lambda) * (v / (1 + 2 * Lambda)))
  <= 1 / 2 * ((x - v) * (x - v)) + Lambda * (x * x).
Proof.
  intros HL.
  assert (Hv : v = v / (1 + 2 * Lambda) * (1 + 2 * Lambda)) by (field; lra).
  generalize dependent (v / (1 + 2 * Lambda)). intros y Hv. subst v.
  pose proof (Rle_0_sqr (x - y)) as Hsq. unfold Rsqr in Hsq.
  assert (0 <= Lambda * ((x - y) * (x - y))) by (apply Rmult_le_pos; lra).
  nra.
Qed.

Lemma SquaredL2_objective_cons (Lambda v x : R) (vs xs : list R) :
  SquaredL2_objective Lambda (v :: vs) (x :: xs)
  = (1 / 2 * ((x - v) * (x - v)) + Lambda * (x * x))
    + SquaredL2_objective Lambda vs xs.
Proof.
  unfold SquaredL2_objective. rewrite sq_dist_cons, sum_squares_cons. ring.
Qed.

Lemma ridge_list_minimizes (Lambda : R) (vs xs : list R) :
  0 <= Lambda ->
  List.length xs = List.length vs ->
  SquaredL2_objective Lambda vs (map (fun v => v / (1 + 2 * Lambda)) vs)
  <= SquaredL2_objective Lambda vs xs.
Proof.
  intros HL. revert xs.
  induction vs as [| v vs IH]; intros [| x xs] Hlen; simpl in Hlen;
    try discriminate.
  - apply Rle_refl.
  - cbn [map]. rewrite !SquaredL2_objective_cons.
    pose proof (ridge_minimizes Lambda v x HL).
    pose proof (IH xs ltac:(congruence)). lra.
Qed.

(** X2.  For [Lambda >= 0] the output of the squared-L2 operator on a real
    array [v] is a minimizer of [1/2 ||x - v||_2^2 + Lambda ||x||_2^2], the
    problem of its docstring. *)
Theorem SquaredL2_output_minimizes_objective :
  forall (Lambda : R) (d : torch.rdtype) (vs : list R),
    0 <= Lambda ->
    exists out : list R,
      evaluate (SquaredL2Regularizer.mk Lambda) (finite d vs) = Ok (finite d out)
      /\ List.length out = List.length vs
      /\ forall xs : list R,
           List.length xs = List.length vs ->
           SquaredL2_objective Lambda vs out <= SquaredL2_objective Lambda vs xs.
Proof.
  intros Lambda d vs HL.
  exists (map (fun v => v / (1 + 2 * Lambda)) vs).
  split; [apply SquaredL2_apply_finite; lra | split].
  - apply length_map.
  - intros xs Hlen. apply ridge_list_minimizes; assumption.
Qed.

Lemma SquaredL2_output_minimizes_objective_witness :
  0 <= 1
  /\ exists out : list R,
       evaluate (SquaredL2Regularizer.mk 1) (finite torch.float64 [3; -6])
       = Ok (finite torch.float64 out)
       /\ List.length out = 2%nat
       /\ forall xs : list R,
            List.length xs = 2%nat ->
            SquaredL2_objective 1 [3; -6] out <= SquaredL2_objective 1 [3; -6] xs.
Proof.
  assert (H1 : 0 <= 1) by lra.
  split; [exact H1 |].
  exact (SquaredL2_output_minimizes_objective 1 torch.float64 [3; -6] H1).
Defined.

(** ** The box constraint as a projection *)

Lemma Box_apply_finite (Lambda lower upper : R) (d : torch.rdtype) (vs : list R) :
  evaluate (BoxConstraint.mk lower upper Lambda) (finite d vs)
  = Ok (finite d (map (fun v => Rmin (Rmax v lower) upper) vs)).
Proof.
  unfold finite. rewrite Box_apply_real. simpl.
  rewrite !map_map. do 3 f_equal.
  apply map_ext. intros v. apply fclamp_finite.
Qed.

Lemma clamp_in_box (lower upper v : R) :
  lower <= upper -> lower <= Rmin (Rmax v lower) upper <= upper.
Proof. intros Hlu. minmax. Qed.

Lemma clamp_closest (lower upper v x : R) :
  lower <= upper -> lower <= x <= upper ->
  (Rmin (Rmax v lower) upper - v) * (Rmin (Rmax v lower) upper - v)
  <= (x - v) * (x - v).
Proof.
  intros Hlu Hx.
  assert (Hc : (v <= lower /\ Rmin (Rmax v lower) upper = lower)
               \/ (upper <= v /\ Rmin (Rmax v lower) upper = upper)
               \/ (lower <= v <= upper /\ Rmin (Rmax v lower) upper = v)).
  { destruct (Rle_dec v lower); [left; split; [lra | minmax] |].
    destruct (Rle_dec upper v); [right; left; split; [lra | minmax] |].
    right; right. split; [lra | minmax]. }
  destruct Hc as [[Hv ->] | [[Hv ->] | [Hv ->]]].
  - assert (0 <= (x - lower) * (x + lower - 2 * v))
      by (apply Rmult_le_pos; lra).
    lra.
  - assert (0 <= (upper - x) * (2 * v - upper - x))
      by (apply Rmult_le_pos; lra).
    lra.
  - pose proof (Rle_0_sqr (x - v)) as Hsq. unfold Rsqr in Hsq. lra.
Qed.

Lemma clamp_list_closest (lower upper : R) (vs xs : list R) :
  lower <= upper ->
  List.length xs = List.length vs ->
  in_box lower upper xs ->
  sq_dist (map (fun v => Rmin (Rmax v lower) upper) vs) vs <= sq_dist xs vs.
Proof.
  intros Hlu. revert xs.
  induction vs as [| v vs IH]; intros [| x xs] Hlen Hbox; simpl in Hlen;
    try discriminate.
  - apply Rle_refl.
  - cbn [map]. rewrite !sq_dist_cons.
    inversion Hbox as [| ? ? Hx Hxs]; subst.
    pose proof (clamp_closest lower upper v x Hlu Hx).
    pose proof (IH xs ltac:(congruence) Hxs). lra.
Qed.

(** X3.  With [lower <= upper] the output of the box constraint on a real
    array [v] is the projection of [v] on the box: every element of the
    output lies in [[lower, upper]], and no array of the box is closer to
    [v] in Euclidean distance. *)
Theorem Box_output_is_projection :
  forall (Lambda lower upper : R) (d : torch.rdtype) (vs : list R),
    lower <= upper ->
    exists out : list R,
      evaluate (BoxConstraint.mk lower upper Lambda) (finite d vs)
      = Ok (finite d out)
      /\ List.length out = List.length vs
      /\ in_box lower upper out
      /\ forall xs : list R,
           List.length xs = List.length vs ->
           in_box lower upper xs ->
           sq_dist out vs <= sq_dist xs vs.
Proof.
  intros Lambda lower upper d vs Hlu.
  exists (map (fun v => Rmin (Rmax v lower) upper) vs).
  split; [apply Box_apply_finite | split; [apply length_map | split]].
  - unfold in_box. apply Forall_forall. intros c Hc.
    apply in_map_iff in Hc. destruct Hc as [v [<- _]].
    apply clamp_in_box. exact Hlu.
  - intros xs Hlen Hbox. apply clamp_list_closest; assumption.
Qed.

Lemma Box_output_is_projection_witness :
  0 <= 1
  /\ exists out : list R,
       evaluate (BoxConstraint.mk 0 1 7) (finite torch.float32 [-1; 2])
       = Ok (finite torch.float32 out)
       /\ List.length out = 2%nat
       /\ in_box 0 1 out
       /\ forall xs : list R,
            List.length xs = 2%nat ->
            in_box 0 1 xs ->
            sq_dist out [-1; 2] <= sq_dist xs [-1; 2].
Proof.
  assert (H01 : 0 <= 1) by lra.
  split; [exact H01 |].
  exact (Box_output_is_projection 7 0 1 torch.float32 [-1; 2] H01).
Defined.

(** X4.  Construction of the box constraint accepts bounds in the wrong
    order, and the operator then sends every element of a real array to
    [upper], whatever the input. *)
Theorem Box_inverted_bounds_give_upper :
  forall (Lambda lower upper : R) (d : torch.rdtype) (vs : list R),
    upper < lower ->
    exists op : BoxConstraint.t,
      BoxConstraint.__init__ Lambda lower upper = Ok op
      /\ evaluate op (finite d vs) = Ok (finite d (map (fun _ => upper) vs)).
Proof.
  intros Lambda lower upper d vs Hul.
  exists (BoxConstraint.mk lower upper Lambda).
  split; [reflexivity |].
  rewrite Box_apply_finite. do 2 f_equal.
  apply map_ext. intros v. minmax.
Qed.

Lemma Box_inverted_bounds_give_upper_witness :
  0 < 1
  /\ exists op : BoxConstraint.t,
       BoxConstraint.__init__ 0 1 0 = Ok op
       /\ evaluate op (finite torch.float32 [-5; 0.5; 5])
          = Ok (finite torch.float32 (map (fun _ => 0) [-5; 0.5; 5])).
Proof.
  assert (H01 : 0 < 1) by lra.
  split; [exact H01 |].
  exact (Box_inverted_bounds_give_upper 0 1 0 torch.float32 [-5; 0.5; 5] H01).
Defined.

(** X5.  The box constraint is idempotent: applied to its own output it
    returns that output, for any bounds. *)
Theorem Box_idempotent :
  forall (Lambda lower upper : R) (d : torch.rdtype) (vs : list R),
    exists out : list R,
      evaluate (BoxConstraint.mk lower upper Lambda) (finite d vs)
      = Ok (finite d out)
      /\ evaluate (BoxConstraint.mk lower upper Lambda) (finite d out)
         = Ok (finite d out).
Proof.
  intros Lambda lower upper d vs.
  exists (map (fun v => Rmin (Rmax v lower) upper) vs).
  split; [apply Box_apply_finite |].
  rewrite Box_apply_finite, map_map. do 2 f_equal.
  apply map_ext. intros v. minmax.
Qed.

(** ** Non-expansiveness *)

Lemma square_le_of_abs_le (x y : R) : Rabs x <= Rabs y -> x * x <= y * y.
Proof. intros H. apply Rsqr_le_abs_1 in H. exact H. Qed.

Lemma soft_threshold_nonexpansive (Lambda a b : R) :
  0 <= Lambda ->
  (soft_threshold Lambda a - soft_threshold Lambda b)
  * (soft_threshold Lambda a - soft_threshold Lambda b)
  <= (a - b) * (a - b).
Proof.
  intros HL. apply square_le_of_abs_le.
  destruct (soft_threshold_cases Lambda a HL)
    as [[Ha ->] | [[Ha ->] | [Ha ->]]];
  destruct (soft_threshold_cases Lambda b HL)
    as [[Hb ->] | [[Hb ->] | [Hb ->]]];
  unfold Rabs; repeat destruct (Rcase_abs _); lra.
Qed.

Lemma clamp_nonexpansive (lower upper a b : R) :
  (Rmin (Rmax a lower) upper - Rmin (Rmax b lower) upper)
  * (Rmin (Rmax a lower) upper - Rmin (Rmax b lower) upper)
  <= (a - b) * (a - b).
Proof.
  apply square_le_of_abs_le.
  unfold Rmin, Rmax, Rabs.
  repeat destruct (Rle_dec _ _); repeat destruct (Rcase_abs _); lra.
Qed.

(** An elementwise map that is non-expansive on each element is
    non-expansive for the Euclidean distance. *)
Lemma map_nonexpansive (f : R -> R) (xs ys : list R) :
  (forall a b, (f a - f b) * (f a - f b) <= (a - b) * (a - b)) ->
  List.length xs = List.length ys ->
  sq_dist (map f xs) (map f ys) <= sq_dist xs ys.
Proof.
  intros Hf. revert ys.
  induction xs as [| x xs IH]; intros [| y ys] Hlen; simpl in Hlen;
    try discriminate.
  - apply Rle_refl.
  - cbn [map]. rewrite !sq_dist_cons.
    pose proof (Hf x y). pose proof (IH ys ltac:(congruence)). lra.
Qed.

(** X6.  For [Lambda >= 0] the L1 operator without transform is
    non-expansive: the outputs for two real arrays of one size are at most
    as far apart, in Euclidean distance, as the inputs. *)
Theorem L1_nonexpansive :
  forall (Lambda : R) (d : torch.rdtype) (xs ys : list R),
    0 <= Lambda ->
    List.length xs = List.length ys ->
    exists ox oy : list R,
      evaluate (L1Regularizer.mk Lambda None) (finite d xs) = Ok (finite d ox)
      /\ evaluate (L1Regularizer.mk Lambda None) (finite d ys) = Ok (finite d oy)
      /\ sq_dist ox oy <= sq_dist xs ys.
Proof.
  intros Lambda d xs ys HL Hlen.
  exists (map (soft_threshold Lambda) xs), (map (soft_threshold Lambda) ys).
  split; [apply L1_apply_finite; exact HL |].
  split; [apply L1_apply_finite; exact HL |].
  apply map_nonexpansive; [| exact Hlen].
  intros a b. apply soft_threshold_nonexpansive. exact HL.
Qed.

Lemma L1_nonexpansive_witness :
  0 <= 1 /\ List.length [3; 0] = List.length [0.5; -2]
  /\ exists ox oy : list R,
       evaluate (L1Regularizer.mk 1 None) (finite torch.float32 [3; 0])
       = Ok (finite torch.float32 ox)
       /\ evaluate (L1Regularizer.mk 1 None) (finite torch.float32 [0.5; -2])
          = Ok (finite torch.float32 oy)
       /\ sq_dist ox oy <= sq_dist [3; 0] [0.5; -2].
Proof.
  assert (H1 : 0 <= 1) by lra.
  split; [exact H1 | split; [reflexivity |]].
  exact (L1_nonexpansive 1 torch.float32 [3; 0] [0.5; -2] H1 eq_refl).
Defined.

(** X7.  The box constraint is non-expansive, for any bounds: the outputs
    for two real arrays of one size are at most as far apart as the
    inputs. *)
Theorem Box_nonexpansive :
  forall (Lambda lower upper : R) (d : torch.rdtype) (xs ys : list R),
    List.length xs = List.length ys ->
    exists ox oy : list R,
      evaluate (BoxConstraint.mk lower upper Lambda) (finite d xs)
      = Ok (finite d ox)
      /\ evaluate (BoxConstraint.mk lower upper Lambda) (finite d ys)
         = Ok (finite d oy)
      /\ sq_dist ox oy <= sq_dist xs ys.
Proof.
  intros Lambda lower upper d xs ys Hlen.
  exists (map (fun v => Rmin (Rmax v lower) upper) xs),
         (map (fun v => Rmin (Rmax v lower) upper) ys).
  split; [apply Box_apply_finite |].
  split; [apply Box_apply_finite |].
  apply (map_nonexpansive (fun v => Rmin (Rmax v lower) upper)); [| exact Hlen].
  intros a b. apply clamp_nonexpansive.
Qed.

Lemma Box_nonexpansive_witness :
  List.length [-1; 2] = List.length [0.5; 0.5]
  /\ exists ox oy : list R,
       evaluate (BoxConstraint.mk 0 1 0) (finite torch.float32 [-1; 2])
       = Ok (finite torch.float32 ox)
       /\ evaluate (BoxConstraint.mk 0 1 0) (finite torch.float32 [0.5; 0.5])
          = Ok (finite torch.float32 oy)
       /\ sq_dist ox oy <= sq_dist [-1; 2] [0.5; 0.5].
Proof.
  split; [reflexivity |].
  exact (Box_nonexpansive 0 0 1 torch.float32 [-1; 2] [0.5; 0.5] eq_refl).
Defined.

(** ** Composition of soft thresholds *)

Lemma soft_threshold_compose (L1 L2 v : R) :
  0 <= L1 -> 0 <= L2 ->
  soft_threshold L1 (soft_threshold L2 v) = soft_threshold (L1 + L2) v.
Proof.
  intros H1 H2.
  assert (H12 : 0 <= L1 + L2) by lra.
  destruct (soft_threshold_cases L2 v H2)
    as [[Hv Hs] | [[Hv Hs] | [Hv Hs]]]; rewrite Hs;
  destruct (soft_threshold_cases (L1 + L2) v H12)
    as [[Hw Ht] | [[Hw Ht] | [Hw Ht]]]; rewrite Ht;
  match goal with
  | |- soft_threshold L1 ?u = _ =>
      destruct (soft_threshold_cases L1 u H1)
        as [[Hu Hr] | [[Hu Hr] | [Hu Hr]]]; rewrite Hr
  end; lra.
Qed.

(** X8.  Soft thresholds add up: for [Lambda1, Lambda2 >= 0], applying the
    L1 operator of weight [Lambda1] to the output of the L1 operator of
    weight [Lambda2] gives the output of the L1 operator of weight
    [Lambda1 + Lambda2] (operators without transform, real arrays). *)
Theorem L1_thresholds_add :
  forall (Lambda1 Lambda2 : R) (d : torch.rdtype) (vs : list R),
    0 <= Lambda1 -> 0 <= Lambda2 ->
    exists mid : list R,
      evaluate (L1Regularizer.mk Lambda2 None) (finite d vs) = Ok (finite d mid)
      /\ evaluate (L1Regularizer.mk Lambda1 None) (finite d mid)
         = evaluate (L1Regularizer.mk (Lambda1 + Lambda2) None) (finite d vs).
Proof.
  intros Lambda1 Lambda2 d vs H1 H2.
  exists (map (soft_threshold Lambda2) vs).
  split; [apply L1_apply_finite; exact H2 |].
  rewrite !L1_apply_finite by lra.
  rewrite map_map. do 2 f_equal.
  apply map_ext. intros v. apply soft_threshold_compose; assumption.
Qed.

Lemma L1_thresholds_add_witness :
  0 <= 1 /\ 0 <= 2
  /\ exists mid : list R,
       evaluate (L1Regularizer.mk 2 None) (finite torch.float32 [5; -1]) 
       = Ok (finite torch.float32 mid)
       /\ evaluate (L1Regularizer.mk 1 None) (finite torch.float32 mid)
          = evaluate (L1Regularizer.mk (1 + 2) None) (finite torch.float32 [5; -1]).
Proof.
  assert (H1 : 0 <= 1) by lra. assert (H2 : 0 <= 2) by lra.
  split; [exact H1 | split; [exact H2 |]].
  exact (L1_thresholds_add 1 2 torch.float32 [5; -1] H1 H2).
Defined.

(** ** Division by zero in the squared-L2 operator *)

(** X9.  Construction of the squared-L2 operator accepts [Lambda = -1/2],
    for which [1 + 2 * Lambda] is zero; the call then raises nothing and
    returns, for each element of a real array, +inf when it is positive,
    -inf when it is negative and NaN when it is zero. *)
Theorem SquaredL2_divides_by_zero :
  forall (d : torch.rdtype) (vs : list R),
    exists op : SquaredL2Regularizer.t,
      SquaredL2Regularizer.__init__ (- (1 / 2)) = Ok op
      /\ evaluate op (finite d vs)
         = Ok (torch.TReal (torch.RT d
                 (map (fun v => by_sign v NInf NaN PInf) vs))).
Proof.
  intros d vs. exists (SquaredL2Regularizer.mk (- (1 / 2))).
  split; [reflexivity |].
  unfold finite, evaluate. rewrite call_real. simpl.
  rewrite map_map. do 3 f_equal.
  apply map_ext. intros v.
  replace (1 + 2 * - (1 / 2)) with 0 by field.
  apply by_sign_zero.
Qed.


(** ** The L2 operator as block shrinkage *)

Lemma dot_cons (x y : R) (xs ys : list R) :
  dot (x :: xs) (y :: ys) = x * y + dot xs ys.
Proof. reflexivity. Qed.

Lemma sum_squares_pos (xs : list R) : 0 <= sum_squares xs.
Proof. apply sum_squares_nonneg. Qed.

Lemma norm2_sqrt (xs : list R) : norm2 xs = sqrt (sum_squares xs).
Proof. reflexivity. Qed.

Lemma norm2_pos (xs : list R) : 0 <= norm2 xs.
Proof. rewrite norm2_sqrt. apply sqrt_pos. Qed.

Lemma norm2_square (xs : list R) : norm2 xs * norm2 xs = sum_squares xs.
Proof. rewrite norm2_sqrt. apply sqrt_sqrt. apply sum_squares_pos. Qed.

Lemma norm2_cons_square (x : R) (xs : list R) :
  norm2 (x :: xs) * norm2 (x :: xs) = x * x + norm2 xs * norm2 xs.
Proof. rewrite !norm2_square. apply sum_squares_cons. Qed.

Lemma sq_dist_expand (xs vs : list R) :
  List.length xs = List.length vs ->
  sq_dist xs vs = sum_squares xs - 2 * dot xs vs + sum_squares vs.
Proof.
  revert vs. induction xs as [| x xs IH]; intros [| v vs] Hlen; simpl in Hlen;
    try discriminate.
  - unfold sq_dist, sum_squares, dot, sum_list. simpl. ring.
  - rewrite sq_dist_cons, !sum_squares_cons, dot_cons.
    rewrite (IH vs) by congruence. ring.
Qed.

(** The Cauchy-Schwarz inequality. *)
Lemma cauchy_schwarz (xs ys : list R) :
  List.length xs = List.length ys ->
  dot xs ys <= norm2 xs * norm2 ys.
Proof.
  revert ys. induction xs as [| x xs IH]; intros [| y ys] Hlen; simpl in Hlen;
    try discriminate.
  - unfold dot, sum_list. simpl.
    pose proof (norm2_pos []) as Hn. nra.
  - rewrite dot_cons.
    pose proof (IH ys ltac:(congruence)) as Hdot.
    pose proof (norm2_pos xs) as Hx. pose proof (norm2_pos ys) as Hy.
    pose proof (norm2_pos (x :: xs)) as Hx'.
    pose proof (norm2_pos (y :: ys)) as Hy'.
    pose proof (norm2_cons_square x xs) as Hsx.
    pose proof (norm2_cons_square y ys) as Hsy.
    apply Rle_trans with (x * y + norm2 xs * norm2 ys); [lra |].
    remember (norm2 (x :: xs)) as A eqn:EA.
    remember (norm2 (y :: ys)) as B eqn:EB.
    remember (norm2 xs) as a eqn:Ea.
    remember (norm2 ys) as b eqn:Eb.
    clear EA EB Ea Eb IH Hdot.
    apply Rsqr_incr_0_var; [| apply Rmult_le_pos; assumption].
    unfold Rsqr.
    replace (A * B * (A * B)) with ((A * A) * (B * B)) by ring.
    rewrite Hsx, Hsy.
    pose proof (Rle_0_sqr (x * b - a * y)) as Hsq. unfold Rsqr in Hsq. nra.
Qed.

Lemma sum_squares_scale (c : R) (xs : list R) :
  sum_squares (map (fun x => c * x) xs) = c * c * sum_squares xs.
Proof.
  induction xs as [| x xs IH].
  - unfold sum_squares, sum_list. simpl. ring.
  - cbn [map]. rewrite !sum_squares_cons, IH. ring.
Qed.

Lemma norm2_scale (c : R) (xs : list R) :
  norm2 (map (fun x => c * x) xs) = Rabs c * norm2 xs.
Proof.
  rewrite !norm2_sqrt, sum_squares_scale.
  rewrite sqrt_mult_alt by nra.
  fold (Rsqr c). rewrite sqrt_Rsqr_abs. reflexivity.
Qed.

Lemma sq_dist_scale (c : R) (vs : list R) :
  sq_dist (map (fun x => c * x) vs) vs = (c - 1) * (c - 1) * sum_squares vs.
Proof.
  induction vs as [| v vs IH].
  - unfold sq_dist, sum_squares, sum_list. simpl. ring.
  - cbn [map]. rewrite sq_dist_cons, sum_squares_cons, IH. ring.
Qed.

(** The objective of any candidate is bounded from below through its
    norm. *)
Lemma L2_objective_lower_bound (Lambda : R) (vs xs : list R) :
  List.length xs = List.length vs ->
  1 / 2 * ((norm2 xs - norm2 vs) * (norm2 xs - norm2 vs)) + Lambda * norm2 xs
  <= L2_objective Lambda vs xs.
Proof.
  intros Hlen. unfold L2_objective.
  rewrite sq_dist_expand by exact Hlen.
  pose proof (cauchy_schwarz xs vs Hlen) as Hcs.
  rewrite <- !norm2_square. nra.
Qed.

(** The factor applied by the L2 operator when [Lambda > 0]. *)
Lemma L2_factor_cases (Lambda n : R) :
  0 < Lambda -> 0 <= n ->
  (n <= Lambda /\ 1 - Lambda / Rmax Lambda n = 0)
  \/ (Lambda < n /\ 1 - Lambda / Rmax Lambda n = (n - Lambda) / n).
Proof.
  intros HL Hn. destruct (Rle_dec n Lambda) as [Hle | Hgt].
  - left. split; [exact Hle |]. rewrite Rmax_left by lra. field. lra.
  - right. split; [lra |]. rewrite Rmax_right by lra. field. lra.
Qed.

Lemma L2_scaled_minimizes (Lambda : R) (vs xs : list R) :
  0 < Lambda ->
  List.length xs = List.length vs ->
  L2_objective Lambda vs
    (map (fun v => (1 - Lambda / Rmax Lambda (norm2 vs)) * v) vs)
  <= L2_objective Lambda vs xs.
Proof.
  intros HL Hlen.
  apply Rle_trans with
    (1 / 2 * ((norm2 xs - norm2 vs) * (norm2 xs - norm2 vs)) + Lambda * norm2 xs);
    [| apply L2_objective_lower_bound; exact Hlen].
  unfold L2_objective. rewrite sq_dist_scale, norm2_scale.
  rewrite <- norm2_square.
  pose proof (norm2_pos vs) as Hn. pose proof (norm2_pos xs) as Hr.
  generalize dependent (norm2 xs). intros r Hr.
  generalize dependent (norm2 vs). intros n Hn.
  destruct (L2_factor_cases Lambda n HL Hn) as [[Hle ->] | [Hgt ->]].
  - rewrite Rabs_R0. nra.
  - assert (Hc : 0 <= (n - Lambda) / n)
      by (apply Rmult_le_pos; [lra | left; apply Rinv_0_lt_compat; lra]).
    rewrite Rabs_right by lra.
    replace (((n - Lambda) / n - 1) * ((n - Lambda) / n - 1) * (n * n))
      with (Lambda * Lambda) by (field; lra).
    replace ((n - Lambda) / n * n) with (n - Lambda) by (field; lra).
    pose proof (Rle_0_sqr (r - n + Lambda)) as Hsq. unfold Rsqr in Hsq. nra.
Qed.

(** X10.  For [Lambda > 0] the output of the L2 operator on a real array
    [v] is a minimizer of [1/2 ||x - v||_2^2 + Lambda ||x||_2], the problem
    of its docstring. *)
Theorem L2_output_minimizes_objective :
  forall (Lambda : R) (d : torch.rdtype) (vs : list R),
    0 < Lambda ->
    exists out : list R,
      evaluate (L2Regularizer.mk Lambda) (finite d vs)
      = Ok (finite (torch.promote_rr torch.float32 d) out)
      /\ List.length out = List.length vs
      /\ forall xs : list R,
           List.length xs = List.length vs ->
           L2_objective Lambda vs out <= L2_objective Lambda vs xs.
Proof.
  intros Lambda d vs HL.
  exists (map (fun v => (1 - Lambda / Rmax Lambda (norm2 vs)) * v) vs).
  split; [| split].
  - apply L2_formula. apply Rlt_le_trans with Lambda; [exact HL | apply Rmax_l].
  - apply length_map.
  - intros xs Hlen. apply L2_scaled_minimizes; assumption.
Qed.

Lemma L2_output_minimizes_objective_witness :
  0 < 1
  /\ exists out : list R,
       evaluate (L2Regularizer.mk 1) (finite torch.float32 [3; 4])
       = Ok (finite (torch.promote_rr torch.float32 torch.float32) out)
       /\ List.length out = 2%nat
       /\ forall xs : list R,
            List.length xs = 2%nat ->
            L2_objective 1 [3; 4] out <= L2_objective 1 [3; 4] xs.
Proof.
  assert (H1 : 0 < 1) by lra.
  split; [exact H1 |].
  exact (L2_output_minimizes_objective 1 torch.float32 [3; 4] H1).
Defined.

(** X11.  For [Lambda > 0] the L2 operator multiplies a real array by one
    factor in [[0, 1)], and the norm of the output is the norm of the input
    reduced by [Lambda], or 0 when the norm is at most [Lambda]. *)
Theorem L2_shrinks_norm_by_Lambda :
  forall (Lambda : R) (d : torch.rdtype) (vs : list R),
    0 < Lambda ->
    exists c : R,
      0 <= c < 1
      /\ evaluate (L2Regularizer.mk Lambda) (finite d vs)
         = Ok (finite (torch.promote_rr torch.float32 d) (map (fun v => c * v) vs))
      /\ norm2 (map (fun v => c * v) vs) = Rmax (norm2 vs - Lambda) 0.
Proof.
  intros Lambda d vs HL.
  exists (1 - Lambda / Rmax Lambda (norm2 vs)).
  pose proof (norm2_pos vs) as Hn.
  split; [| split].
  - destruct (L2_factor_cases Lambda (norm2 vs) HL Hn) as [[Hle ->] | [Hgt ->]].
    + lra.
    + split.
      * apply Rmult_le_pos; [lra | left; apply Rinv_0_lt_compat; lra].
      * apply Rmult_lt_reg_r with (norm2 vs); [lra |].
        replace ((norm2 vs - Lambda) / norm2 vs * norm2 vs)
          with (norm2 vs - Lambda) by (field; lra).
        lra.
  - apply L2_formula. apply Rlt_le_trans with Lambda; [exact HL | apply Rmax_l].
  - rewrite norm2_scale.
    destruct (L2_factor_cases Lambda (norm2 vs) HL Hn) as [[Hle ->] | [Hgt ->]].
    + rewrite Rabs_R0, Rmax_right by lra. ring.
    + assert (Hc : 0 <= (norm2 vs - Lambda) / norm2 vs)
        by (apply Rmult_le_pos; [lra | left; apply Rinv_0_lt_compat; lra]).
      rewrite Rabs_right by lra. rewrite Rmax_left by lra. field. lra.
Qed.

Lemma L2_shrinks_norm_by_Lambda_witness :
  0 < 1
  /\ exists c : R,
       0 <= c < 1
       /\ evaluate (L2Regularizer.mk 1) (finite torch.float64 [3; 4])
          = Ok (finite (torch.promote_rr torch.float32 torch.float64)
                  (map (fun v => c * v) [3; 4]))
       /\ norm2 (map (fun v => c * v) [3; 4]) = Rmax (norm2 [3; 4] - 1) 0.
Proof.
  assert (H1 : 0 < 1) by lra.
  split; [exact H1 |].
  exact (L2_shrinks_norm_by_Lambda 1 torch.float64 [3; 4] H1).
Defined.

Lemma L2_factor_norm (Lambda : R) (vs : list R) :
  0 < Lambda ->
  norm2 (map (fun v => (1 - Lambda / Rmax Lambda (norm2 vs)) * v) vs)
  = Rmax (norm2 vs - Lambda) 0.
Proof.
  intros HL. pose proof (norm2_pos vs) as Hn.
  rewrite norm2_scale.
  destruct (L2_factor_cases Lambda (norm2 vs) HL Hn) as [[Hle ->] | [Hgt ->]].
  - rewrite Rabs_R0, Rmax_right by lra. ring.
  - assert (Hc : 0 <= (norm2 vs - Lambda) / norm2 vs)
      by (apply Rmult_le_pos; [lra | left; apply Rinv_0_lt_compat; lra]).
    rewrite Rabs_right by lra. rewrite Rmax_left by lra. field. lra.
Qed.

(** The factors of two shrinkages in a row multiply to the factor of the
    shrinkage by the sum. *)
Lemma L2_factors_compose (L1 L2 n : R) :
  0 < L1 -> 0 < L2 -> 0 <= n ->
  (1 - L1 / Rmax L1 (Rmax (n - L2) 0)) * (1 - L2 / Rmax L2 n)
  = 1 - (L1 + L2) / Rmax (L1 + L2) n.
Proof.
  intros H1 H2 Hn.
  assert (H12 : 0 < L1 + L2) by lra.
  assert (Hm : 0 <= Rmax (n - L2) 0) by apply Rmax_r.
  destruct (L2_factor_cases L2 n H2 Hn) as [[Hle ->] | [Hgt ->]].
  - destruct (L2_factor_cases (L1 + L2) n H12 Hn) as [[Hle' ->] | [Hgt' _]];
      [ring | lra].
  - rewrite (Rmax_left (n - L2) 0) in * by lra.
    destruct (L2_factor_cases L1 (n - L2) H1 Hm) as [[Hle1 ->] | [Hgt1 ->]];
    destruct (L2_factor_cases (L1 + L2) n H12 Hn) as [[Hle' ->] | [Hgt' ->]];
    try lra; try ring.
    field. lra.
Qed.

Lemma promote_float32_idem (d : torch.rdtype) :
  torch.promote_rr torch.float32 (torch.promote_rr torch.float32 d)
  = torch.promote_rr torch.float32 d.
Proof. destruct d; reflexivity. Qed.

(** X12.  Shrinkages add up: for [Lambda1, Lambda2 > 0], applying the L2
    operator of weight [Lambda1] to the output of the L2 operator of weight
    [Lambda2] gives the output of the L2 operator of weight
    [Lambda1 + Lambda2] (real arrays). *)
Theorem L2_thresholds_add :
  forall (Lambda1 Lambda2 : R) (d : torch.rdtype) (vs : list R),
    0 < Lambda1 -> 0 < Lambda2 ->
    exists mid : list R,
      evaluate (L2Regularizer.mk Lambda2) (finite d vs)
      = Ok (finite (torch.promote_rr torch.float32 d) mid)
      /\ evaluate (L2Regularizer.mk Lambda1)
           (finite (torch.promote_rr torch.float32 d) mid)
         = evaluate (L2Regularizer.mk (Lambda1 + Lambda2)) (finite d vs).
Proof.
  intros Lambda1 Lambda2 d vs H1 H2.
  exists (map (fun v => (1 - Lambda2 / Rmax Lambda2 (norm2 vs)) * v) vs).
  assert (Hpos : forall L n, 0 < L -> 0 < Rmax L n)
    by (intros L n HL; apply Rlt_le_trans with L; [exact HL | apply Rmax_l]).
  split; [apply L2_formula; apply Hpos; exact H2 |].
  rewrite !L2_formula by (apply Hpos; lra).
  rewrite promote_float32_idem, L2_factor_norm by exact H2.
  rewrite map_map. do 2 f_equal.
  apply map_ext. intros v.
  rewrite <- (L2_factors_compose Lambda1 Lambda2 (norm2 vs))
    by (try assumption; apply norm2_pos).
  ring.
Qed.

Lemma L2_thresholds_add_witness :
  0 < 1 /\ 0 < 2
  /\ exists mid : list R,
       evaluate (L2Regularizer.mk 2) (finite torch.float32 [3; 4])
       = Ok (finite (torch.promote_rr torch.float32 torch.float32) mid)
       /\ evaluate (L2Regularizer.mk 1)
            (finite (torch.promote_rr torch.float32 torch.float32) mid)
          = evaluate (L2Regularizer.mk (1 + 2)) (finite torch.float32 [3; 4]).
Proof.
  assert (H1 : 0 < 1) by lra. assert (H2 : 0 < 2) by lra.
  split; [exact H1 | split; [exact H2 |]].
  exact (L2_thresholds_add 1 2 torch.float32 [3; 4] H1 H2).
Defined.

(** ** The L2 operator on an all-zero array *)

Lemma norm2_zeros (n : nat) : norm2 (repeat 0 n) = 0.
Proof.
  rewrite norm2_sqrt.
  replace (sum_squares (repeat 0 n)) with 0; [apply sqrt_0 |].
  induction n as [| n IH]; [reflexivity |].
  cbn [repeat]. rewrite sum_squares_cons, <- IH. ring.
Qed.

Lemma scale_item_zeros (Lambda : R) (d : torch.rdtype) (n : nat) :
  Lambda <= 0 ->
  scale_item Lambda (finite d (repeat 0 n)) = (if Rltb Lambda 0 then PInf else NaN).
Proof.
  intros HL. unfold scale_item.
  rewrite norm_finite, norm2_zeros, fmax_finite.
  rewrite Rmax_right by exact HL. simpl.
  rewrite by_sign_zero. unfold by_sign.
  case_Rltb; [reflexivity |].
  rewrite Rltb_false by lra. reflexivity.
Qed.

(** X13.  For [Lambda <= 0], which construction accepts, the L2 operator
    turns an all-zero real array into an array of NaN: the denominator
    [max(Lambda, norm)] is 0, so [scale] is NaN (for [Lambda = 0]) or +inf
    (for [Lambda < 0]), and its product with 0 is NaN. *)
Theorem L2_nonpositive_Lambda_zero_array_gives_nan :
  forall (Lambda : R) (d : torch.rdtype) (n : nat),
    Lambda <= 0 ->
    exists op : L2Regularizer.t,
      L2Regularizer.__init__ Lambda = Ok op
      /\ evaluate op (finite d (repeat 0 n))
         = Ok (torch.TReal (torch.RT (torch.promote_rr torch.float32 d)
                 (repeat NaN n))).
Proof.
  intros Lambda d n HL. exists (L2Regularizer.mk Lambda).
  split; [reflexivity |].
  unfold finite at 1. rewrite L2_apply_real.
  fold (finite d (repeat 0 n)).
  rewrite scale_item_zeros by exact HL.
  rewrite !map_repeat. do 3 f_equal.
  case_Rltb; simpl; [rewrite by_sign_zero |]; reflexivity.
Qed.

Lemma L2_nonpositive_Lambda_zero_array_gives_nan_witness :
  -1 <= 0
  /\ exists op : L2Regularizer.t,
       L2Regularizer.__init__ (-1) = Ok op
       /\ evaluate op (finite torch.float32 (repeat 0 2))
          = Ok (torch.TReal (torch.RT
                  (torch.promote_rr torch.float32 torch.float32) (repeat NaN 2))).
Proof.
  assert (H : -1 <= 0) by lra.
  split; [exact H |].
  exact (L2_nonpositive_Lambda_zero_array_gives_nan (-1) torch.float32 2 H).
Defined.


(** ** The complex branch *)


Lemma nth_error_map2 (A B C : Type) (f : A -> B -> C) (xs : list A) (ys : list B)
  (k : nat) (x : A) (y : B) :
  nth_error xs k = Some x -> nth_error ys k = Some y ->
  nth_error (map2 f xs ys) k = Some (f x y).
Proof.
  revert xs ys. induction k as [| k IH]; intros [| x' xs] [| y' ys] Hx Hy;
    simpl in *; try discriminate.
  - congruence.
  - apply IH; assumption.
Qed.

(** The complex branch on an operator whose [_apply] keeps real tensors
    real and of the same size: the phase times the output on the
    magnitudes, element by element. *)
Lemma evaluate_complex_elements (Self : Type) (P : Prox Self) (op : Self)
  (d : torch.cdtype) (zs : list cnum) :
  keeps_real_shape op ->
  d <> torch.complex32 ->
  exists (d' : torch.cdtype) (ys : list fnum),
    List.length ys = List.length zs
    /\ evaluate op (torch.TCplx (torch.CT d zs))
       = Ok (torch.TCplx (torch.CT d'
               (map2 cmul (map atan_phase zs) (map of_real ys)))).
Proof.
  intros Hk Hd. unfold evaluate. rewrite call_complex by exact Hd.
  destruct (Hk (torch.RT (torch.real_of d) (map cabs zs)))
    as [[d2 ys] [op' [Happ Hlen]]].
  simpl in Hlen. rewrite length_map in Hlen.
  change (torch.abs (torch.TCplx (torch.CT d zs)))
    with (torch.TReal (torch.RT (torch.real_of d) (map cabs zs))).
  rewrite Happ.
  rewrite mul_complex_real by (rewrite length_map; exact Hlen).
  exists (torch.promote_cr d d2), ys. split; [exact Hlen | reflexivity].
Qed.



Lemma cmul_nan (w : cnum) : cmul (Cx NaN NaN) w = Cx NaN NaN.
Proof. destruct w as [a b]. reflexivity. Qed.

(** X15.  A zero element of a complex input comes out as NaN: for an
    operator whose [_apply] keeps real arrays real and of the same size,
    the output on a cfloat or cdouble array has NaN in both components
    wherever the input has [0 + 0i], because the phase is computed from the
    quotient 0/0. *)
Theorem complex_zero_element_gives_nan :
  forall (Self : Type) (P : Prox Self) (op : Self)
         (d : torch.cdtype) (zs : list cnum) (k : nat),
    keeps_real_shape op ->
    d <> torch.complex32 ->
    nth_error zs k = Some (Cx (Fin 0) (Fin 0)) ->
    exists out : torch.CTensor,
      evaluate op (torch.TCplx (torch.CT d zs)) = Ok (torch.TCplx out)
      /\ nth_error (torch.cvals out) k = Some (Cx NaN NaN).
Proof.
  intros Self P op d zs k Hk Hd Hz.
  destruct (evaluate_complex_elements Self P op d zs Hk Hd)
    as [d' [ys [Hlen Hev]]].
  rewrite Hev. eexists. split; [reflexivity |]. simpl.
  assert (Hlt : (k < List.length ys)%nat).
  { rewrite Hlen. apply nth_error_Some. rewrite Hz. discriminate. }
  destruct (nth_error ys k) as [y |] eqn:Hy;
    [| apply nth_error_None in Hy; exfalso; apply (Nat.lt_irrefl k);
       apply Nat.lt_le_trans with (List.length ys); assumption].
  rewrite (nth_error_map2 _ _ _ cmul _ _ k (atan_phase (Cx (Fin 0) (Fin 0))) (of_real y)).
  - rewrite atan_phase_origin, cmul_nan. reflexivity.
  - rewrite nth_error_map, Hz. reflexivity.
  - rewrite nth_error_map, Hy. reflexivity.
Qed.

Lemma complex_zero_element_gives_nan_witness :
  keeps_real_shape (BoxConstraint.mk 0 1 0)
  /\ torch.complex64 <> torch.complex32
  /\ nth_error [Cx (Fin 1) (Fin 1); Cx (Fin 0) (Fin 0)] 1 = Some (Cx (Fin 0) (Fin 0))
  /\ exists out : torch.CTensor,
       evaluate (BoxConstraint.mk 0 1 0)
         (torch.TCplx (torch.CT torch.complex64
            [Cx (Fin 1) (Fin 1); Cx (Fin 0) (Fin 0)]))
       = Ok (torch.TCplx out)
       /\ nth_error (torch.cvals out) 1 = Some (Cx NaN NaN).
Proof.
  assert (Hd : torch.complex64 <> torch.complex32) by discriminate.
  split; [apply Box_keeps_real_shape | split; [exact Hd | split; [reflexivity |]]].
  exact (complex_zero_element_gives_nan _ _ (BoxConstraint.mk 0 1 0)
           torch.complex64 [Cx (Fin 1) (Fin 1); Cx (Fin 0) (Fin 0)] 1%nat
           (Box_keeps_real_shape (BoxConstraint.mk 0 1 0)) Hd eq_refl).
Defined.

Lemma cabs_cneg (x y : R) :
  cabs (cneg (Cx (Fin x) (Fin y))) = cabs (Cx (Fin x) (Fin y)).
Proof.
  unfold cneg. simpl re. simpl im. simpl fneg.
  rewrite !cabs_finite. do 2 f_equal. ring.
Qed.

Lemma atan_phase_cneg (x y : R) :
  x <> 0 ->
  atan_phase (cneg (Cx (Fin x) (Fin y))) = atan_phase (Cx (Fin x) (Fin y)).
Proof.
  intros Hx. unfold cneg. simpl re. simpl im. simpl fneg.
  rewrite !atan_phase_finite by lra.
  rewrite Rabs_Ropp.
  replace (- x * - x + - y * - y) with (x * x + y * y) by ring.
  replace (- y / - x) with (y / x) by (field; exact Hx).
  reflexivity.
Qed.

(** X16.  The complex branch cannot tell [v] from [-v]: for every
    operator, on a cfloat or cdouble array whose elements are finite with
    nonzero real part, the call on the negated array returns what the call
    on the array returns, since [|-v| = |v|] and
    [atan(-imag / -real) = atan(imag / real)]. *)
Theorem complex_call_ignores_negation :
  forall (Self : Type) (P : Prox Self) (op : Self)
         (d : torch.cdtype) (zs : list cnum),
    d <> torch.complex32 ->
    Forall off_imaginary_axis zs ->
    evaluate op (torch.TCplx (torch.CT d (map cneg zs)))
    = evaluate op (torch.TCplx (torch.CT d zs)).
Proof.
  intros Self P op d zs Hd Hzs.
  rewrite !evaluate_complex by exact Hd.
  rewrite Forall_forall in Hzs.
  assert (Habs : map cabs (map cneg zs) = map cabs zs).
  { rewrite map_map. apply map_ext_in. intros z Hz.
    destruct (Hzs z Hz) as [x [y [-> _]]]. apply cabs_cneg. }
  assert (Hph : map atan_phase (map cneg zs) = map atan_phase zs).
  { rewrite map_map. apply map_ext_in. intros z Hz.
    destruct (Hzs z Hz) as [x [y [-> Hx]]]. apply atan_phase_cneg. exact Hx. }
  change (torch.abs (torch.TCplx (torch.CT d (map cneg zs))))
    with (torch.TReal (torch.RT (torch.real_of d) (map cabs (map cneg zs)))).
  change (torch.abs (torch.TCplx (torch.CT d zs)))
    with (torch.TReal (torch.RT (torch.real_of d) (map cabs zs))).
  rewrite Habs, Hph. reflexivity.
Qed.

Lemma complex_call_ignores_negation_witness :
  torch.complex128 <> torch.complex32
  /\ Forall off_imaginary_axis [Cx (Fin 3) (Fin 4)]
  /\ evaluate (L1Regularizer.mk 1 None)
       (torch.TCplx (torch.CT torch.complex128 (map cneg [Cx (Fin 3) (Fin 4)])))
     = evaluate (L1Regularizer.mk 1 None)
         (torch.TCplx (torch.CT torch.complex128 [Cx (Fin 3) (Fin 4)])).
Proof.
  assert (Hd : torch.complex128 <> torch.complex32) by discriminate.
  assert (Hz : Forall off_imaginary_axis [Cx (Fin 3) (Fin 4)]).
  { constructor; [| constructor]. exists 3, 4. split; [reflexivity | lra]. }
  split; [exact Hd | split; [exact Hz |]].
  exact (complex_call_ignores_negation _ _ (L1Regularizer.mk 1 None)
           torch.complex128 [Cx (Fin 3) (Fin 4)] Hd Hz).
Defined.

Lemma cabs_cos_sin (a : R) : cabs (Cx (Fin (cos a)) (Fin (sin a))) = Fin 1.
Proof.
  rewrite cabs_finite. f_equal.
  replace (cos a * cos a + sin a * sin a) with 1; [apply sqrt_1 |].
  pose proof (sin2_cos2 a) as H. unfold Rsqr in H. lra.
Qed.

Lemma atan_phase_unit (z : cnum) : finite_nonzero z -> cabs (atan_phase z) = Fin 1.
Proof.
  intros [x [y [-> Hxy]]].
  destruct (Req_dec_T x 0) as [-> | Hx].
  - destruct Hxy as [Hx | Hy]; [contradiction |].
    destruct (Rtotal_order y 0) as [Hneg | [Hzero | Hpos]]; [| contradiction |].
    + rewrite atan_phase_imaginary_neg by exact Hneg.
      rewrite cabs_finite. f_equal.
      replace (0 * 0 + -1 * -1) with 1 by ring. apply sqrt_1.
    + rewrite atan_phase_imaginary_pos by exact Hpos.
      rewrite cabs_finite. f_equal.
      replace (0 * 0 + 1 * 1) with 1 by ring. apply sqrt_1.
  - unfold atan_phase. simpl re. simpl im.
    rewrite fdiv_finite by exact Hx. simpl fatan. simpl fcos. simpl fsin.
    apply cabs_cos_sin.
Qed.

(** X17.  The phase returned by [_complex] has magnitude 1 at every finite
    nonzero element of the input, on or off the imaginary axis, whatever
    the other elements of the array are. *)
Theorem phase_has_unit_magnitude :
  forall (Self : Type) (s : Self) (d : torch.cdtype) (zs : list cnum)
         (k : nat) (z : cnum),
    nth_error zs k = Some z ->
    finite_nonzero z ->
    exists out : torch.CTensor,
      fst (_complex (torch.TCplx (torch.CT d zs)) s) = Ok out
      /\ option_map cabs (nth_error (torch.cvals out) k) = Some (Fin 1).
Proof.
  intros Self s d zs k z Hk Hz.
  exists (torch.CT d (map atan_phase zs)).
  rewrite complex_run. split; [reflexivity |].
  simpl torch.cvals. rewrite nth_error_map, Hk. simpl option_map.
  rewrite atan_phase_unit by exact Hz. reflexivity.
Qed.

(** In the array [[-3 + 4i; 0 + 0i; 0 - 2i]], which holds a zero, the
    phase has magnitude 1 at the last element. *)
Lemma phase_has_unit_magnitude_witness :
  nth_error [Cx (Fin (-3)) (Fin 4); Cx (Fin 0) (Fin 0); Cx (Fin 0) (Fin (-2))] 2
  = Some (Cx (Fin 0) (Fin (-2)))
  /\ finite_nonzero (Cx (Fin 0) (Fin (-2)))
  /\ exists out : torch.CTensor,
       fst (_complex (torch.TCplx (torch.CT torch.complex64
                        [Cx (Fin (-3)) (Fin 4); Cx (Fin 0) (Fin 0);
                         Cx (Fin 0) (Fin (-2))])) tt)
       = Ok out
       /\ option_map cabs (nth_error (torch.cvals out) 2) = Some (Fin 1).
Proof.
  assert (Hz : finite_nonzero (Cx (Fin 0) (Fin (-2)))).
  { exists 0, (-2). split; [reflexivity | right; lra]. }
  split; [reflexivity | split; [exact Hz |]].
  exact (phase_has_unit_magnitude unit tt torch.complex64
           [Cx (Fin (-3)) (Fin 4); Cx (Fin 0) (Fin 0); Cx (Fin 0) (Fin (-2))]
           2%nat (Cx (Fin 0) (Fin (-2))) eq_refl Hz).
Defined.

(** ** Inputs that do not take the complex branch *)

(** X18.  A half-precision complex array is sent to [_apply] as it is, so
    the L1 operator and the box constraint raise on it (soft-thresholding
    and clamping are not defined on complex tensors), whereas the box
    constraint returns a result on the same elements held as cfloat. *)
Theorem half_complex_input_is_refused :
  forall (Lambda lower upper : R) (zs : list cnum),
    evaluate (L1Regularizer.mk Lambda None)
      (torch.TCplx (torch.CT torch.complex32 zs)) = Raise RuntimeError
    /\ evaluate (BoxConstraint.mk lower upper Lambda)
         (torch.TCplx (torch.CT torch.complex32 zs)) = Raise RuntimeError
    /\ exists r : torch.Tensor,
         evaluate (BoxConstraint.mk lower upper Lambda)
           (torch.TCplx (torch.CT torch.complex64 zs)) = Ok r.
Proof.
  intros Lambda lower upper zs. split; [| split].
  - run. unfold torch.nn.Softshrink_call. simpl.
    case_Rltb; reflexivity.
  - reflexivity.
  - apply total_of_keeps_real_shape;
      [apply Box_keeps_real_shape | discriminate].
Qed.

(** ** The L1 operator with a transform *)

(** X19.  With a transform [T] that reports 'unitary', the L1 operator
    returns the soft threshold of [T(v)]: when [T] maps the real array [v]
    to the real array [w], the output is
    [sign(w[i]) * max(|w[i]| - Lambda, 0)], an array in the domain of the
    transform; nothing maps it back. *)
Theorem L1_with_transform_thresholds_transformed_array :
  forall (Lambda : R) (T : LinearMap) (d d' : torch.rdtype) (vs ws : list R),
    0 <= Lambda ->
    In "unitary"%string (property T) ->
    LinearMap_call T (finite d vs) = Ok (finite d' ws) ->
    exists op : L1Regularizer.t,
      L1Regularizer.__init__ Lambda (Some T) = Ok op
      /\ evaluate op (finite d vs)
         = Ok (finite d' (map (soft_threshold Lambda) ws)).
Proof.
  intros Lambda T d d' vs ws HL Hu HT.
  exists (L1Regularizer.mk Lambda (Some T)). split.
  - unfold L1Regularizer.__init__.
    apply reports_unitary_In in Hu. rewrite Hu. reflexivity.
  - unfold finite at 1. unfold evaluate. rewrite call_real.
    change (_apply (torch.TReal (torch.RT d (map Fin vs)))
              (L1Regularizer.mk Lambda (Some T)))
      with (L1Regularizer._apply (finite d vs) (L1Regularizer.mk Lambda (Some T))).
    unfold L1Regularizer._apply, bind, self, lift, ret. simpl.
    rewrite HT. unfold finite, torch.nn.Softshrink_call. simpl.
    rewrite Rltb_false by lra. simpl.
    rewrite !map_map. do 3 f_equal.
    apply map_ext. intros w. apply softshrink_finite. exact HL.
Qed.

Lemma L1_with_transform_thresholds_transformed_array_witness :
  0 <= 1
  /\ In "unitary"%string
        (property (mkLinearMap ["unitary"%string]
                     (fun _ => Ok (finite torch.float32 [3; -0.5]))))
  /\ LinearMap_call
       (mkLinearMap ["unitary"%string]
          (fun _ => Ok (finite torch.float32 [3; -0.5])))
       (finite torch.float32 [1; 2])
     = Ok (finite torch.float32 [3; -0.5])
  /\ exists op : L1Regularizer.t,
       L1Regularizer.__init__ 1
         (Some (mkLinearMap ["unitary"%string]
                  (fun _ => Ok (finite torch.float32 [3; -0.5]))))
       = Ok op
       /\ evaluate op (finite torch.float32 [1; 2])
          = Ok (finite torch.float32 (map (soft_threshold 1) [3; -0.5])).
Proof.
  assert (H1 : 0 <= 1) by lra.
  assert (Hu : In "unitary"%string
                 (property (mkLinearMap ["unitary"%string]
                              (fun _ => Ok (finite torch.float32 [3; -0.5])))))
    by (left; reflexivity).
  split; [exact H1 | split; [exact Hu | split; [reflexivity |]]].
  exact (L1_with_transform_thresholds_transformed_array 1
           (mkLinearMap ["unitary"%string]
              (fun _ => Ok (finite torch.float32 [3; -0.5])))
           torch.float32 torch.float32 [1; 2] [3; -0.5] H1 Hu eq_refl).
Defined.

(** X20.  A failure of the transform is the failure of the call: when [T]
    raises on a real array, the L1 operator raises the same exception, for
    every [Lambda]; for a negative [Lambda] too, since the soft threshold
    is applied after the transform. *)
Theorem L1_transform_failure_propagates :
  forall (Lambda : R) (T : LinearMap) (t : torch.RTensor) (e : exn),
    LinearMap_call T (torch.TReal t) = Raise e ->
    evaluate (L1Regularizer.mk Lambda (Some T)) (torch.TReal t) = Raise e.
Proof.
  intros Lambda T t e HT.
  unfold evaluate. rewrite call_real.
  change (_apply (torch.TReal t) (L1Regularizer.mk Lambda (Some T)))
    with (L1Regularizer._apply (torch.TReal t) (L1Regularizer.mk Lambda (Some T))).
  unfold L1Regularizer._apply, bind, self, lift, ret. simpl.
  rewrite HT. reflexivity.
Qed.

Lemma L1_transform_failure_propagates_witness :
  LinearMap_call (mkLinearMap ["unitary"%string] (fun _ => Raise AssertionError))
    (torch.TReal (torch.RT torch.float32 [Fin 1]))
  = Raise AssertionError
  /\ evaluate
       (L1Regularizer.mk (-1)
          (Some (mkLinearMap ["unitary"%string] (fun _ => Raise AssertionError))))
       (torch.TReal (torch.RT torch.float32 [Fin 1]))
     = Raise AssertionError.
Proof.
  split; [reflexivity |].
  exact (L1_transform_failure_propagates (-1)
           (mkLinearMap ["unitary"%string] (fun _ => Raise AssertionError))
           (torch.RT torch.float32 [Fin 1]) AssertionError eq_refl).
Defined.


(** ** The squared-L2 operator on a complex array *)




